(** * Relay server and client mailbox: wire codec, registry, broadcast, dispatch

    A shallow embedding of [src/Multiplayer/Server.cpp] and
    [src/Client/Client.cpp].

    Conventions.
    - [uint8_t] is [Byte.byte]; arithmetic on it goes through [uint8_to_Z]
      and the wrapping conversion [uint8_of_Z].
    - [uint32_t] and [size_t] are [Z] with the wrap-around written out
      ([uint32_of_Z], [size_add]); [size_t] is taken to be 64 bits wide
      (x86-64 Linux and Windows, the targets of the platform includes).
    - [std::vector<T>] is [list T]; [std::map<uint8_t, T>] is
      [gmap uint8 T], iterated in ascending key order.
    - System calls ([send], [recv], the mutex) appear as explicit traces and
      scripted inputs; console logging is left out. *)

From Stdlib Require Import ZArith Lia.
From Stdlib Require Strings.Byte.
From stdpp Require Import base tactics option list list_numbers sorting countable gmap.

Local Open Scope Z_scope.

(** ** Fixed-width integers *)

Abbreviation uint8 := Byte.byte.

Definition uint8_to_Z (b : uint8) : Z := Z.of_N (Byte.to_N b).

(** Conversion to [uint8_t] keeps the low eight bits. *)
Definition uint8_of_Z (z : Z) : uint8 :=
  default Byte.x00 (Byte.of_N (Z.to_N (z mod 256))).

(** Conversion to [uint32_t] keeps the low 32 bits. *)
Definition uint32_of_Z (z : Z) : Z := z mod 2 ^ 32.

(** Addition in [size_t]. *)
Definition size_add (a b : Z) : Z := (a + b) mod 2 ^ 64.

#[global] Instance uint8_eq_dec : EqDecision uint8 := Byte.byte_eq_dec.

#[global] Instance uint8_countable : Countable uint8 :=
  inj_countable Byte.to_N Byte.of_N Byte.of_to_N.

(** [v.size()] *)
Definition size {A} (v : list A) : Z := Z.of_nat (length v).

(** The range [[v.begin() + first, v.begin() + last)]. *)
Definition range {A} (v : list A) (first last : Z) : list A :=
  take (Z.to_nat (last - first)) (drop (Z.to_nat first) v).

(** The four bytes, in memory order, of the [uint32_t] returned by [htonl x]:
    network byte order is most significant byte first, whatever the host. *)
Definition htonl (x : Z) : list uint8 :=
  [ uint8_of_Z (Z.shiftr x 24); uint8_of_Z (Z.shiftr x 16);
    uint8_of_Z (Z.shiftr x 8); uint8_of_Z x ].

(** [ntohl] of the [uint32_t] whose storage holds the bytes [b0 b1 b2 b3]. *)
Definition ntohl (b0 b1 b2 b3 : uint8) : Z :=
  Z.lor (Z.shiftl (uint8_to_Z b0) 24)
    (Z.lor (Z.shiftl (uint8_to_Z b1) 16)
       (Z.lor (Z.shiftl (uint8_to_Z b2) 8) (uint8_to_Z b3))).

(** ** Messages *)

Definition TEXT_MESSAGE : uint8 := Byte.x00.
Definition EVENT_MESSAGE : uint8 := Byte.x01.
Definition SNAPSHOT_MESSAGE : uint8 := Byte.x02.

(** The three derived classes.  Each constructor of the source fixes
    [messageType], so the field is recovered from the class. *)
Record TextMessage := mkText { tm_senderID : uint8; text : list uint8 }.
Record EventMessage := mkEvent { em_senderID : uint8; eventData : list uint8 }.
Record SnapshotMessage :=
  mkSnapshot { sm_senderID : uint8; snapshotData : list uint8 }.

(** A [BaseMessage*] points to one of the three. *)
Inductive BaseMessage :=
| Text (tm : TextMessage)
| Event (em : EventMessage)
| Snapshot (sm : SnapshotMessage).

Definition messageType (msg : BaseMessage) : uint8 :=
  match msg with
  | Text _ => TEXT_MESSAGE
  | Event _ => EVENT_MESSAGE
  | Snapshot _ => SNAPSHOT_MESSAGE
  end.

Definition senderID (msg : BaseMessage) : uint8 :=
  match msg with
  | Text tm => tm_senderID tm
  | Event em => em_senderID em
  | Snapshot sm => sm_senderID sm
  end.

Definition payload (msg : BaseMessage) : list uint8 :=
  match msg with
  | Text tm => text tm
  | Event em => eventData em
  | Snapshot sm => snapshotData sm
  end.

(** [msg->senderID = id] *)
Definition set_senderID (msg : BaseMessage) (id : uint8) : BaseMessage :=
  match msg with
  | Text tm => Text (mkText id (text tm))
  | Event em => Event (mkEvent id (eventData em))
  | Snapshot sm => Snapshot (mkSnapshot id (snapshotData sm))
  end.

(** ** Wire codec (the same text in both source files) *)

(** [serializeMessage(msg, buffer)] appends to [buffer]. *)
Definition serializeMessage (msg : BaseMessage) (buffer : list uint8)
  : list uint8 :=
  let buffer := buffer ++ [messageType msg] in
  let buffer := buffer ++ [senderID msg] in
  match msg with
  | Text tm =>
      let length := htonl (uint32_of_Z (size (text tm))) in
      (buffer ++ length) ++ text tm
  | Event em =>
      let length := htonl (uint32_of_Z (size (eventData em))) in
      (buffer ++ length) ++ eventData em
  | Snapshot sm =>
      let length := htonl (uint32_of_Z (size (snapshotData sm))) in
      (buffer ++ length) ++ snapshotData sm
  end.

(** Both callers serialize into a fresh buffer. *)
Definition encode (msg : BaseMessage) : list uint8 := serializeMessage msg [].

(** The length field read by [memcpy(&length, &buffer[offset], 4)] and
    [ntohl]; only called once [offset + 4 <= buffer.size()]. *)
Definition read_length (buffer : list uint8) (offset : Z) : Z :=
  match drop (Z.to_nat offset) buffer with
  | b0 :: b1 :: b2 :: b3 :: _ => ntohl b0 b1 b2 b3
  | _ => 0
  end.

(** The body shared, word for word, by the three [case] blocks of
    [deserializeMessage]: bounds check, length, bounds check, payload. *)
Definition read_block (buffer : list uint8) (offset : Z) : option (list uint8) :=
  if size buffer <? size_add offset 4 then None else
  let length := read_length buffer offset in
  let offset := size_add offset 4 in
  if size buffer <? size_add offset length then None else
  Some (range buffer offset (offset + length)).

Definition deserializeMessage (buffer : list uint8) : option BaseMessage :=
  if size buffer <? 2 then None else
  match buffer with
  | messageType :: senderID :: _ =>
      let offset := 2 in
      match uint8_to_Z messageType with
      | 0 => text ← read_block buffer offset; Some (Text (mkText senderID text))
      | 1 => data ← read_block buffer offset; Some (Event (mkEvent senderID data))
      | 2 => data ← read_block buffer offset;
             Some (Snapshot (mkSnapshot senderID data))
      | _ => None
      end
  | _ => None
  end.

(** ** Server: registry, accept loop, broadcast *)

Abbreviation SOCKET := Z.
Definition INVALID_SOCKET : SOCKET := -1.

(** The detached [std::thread] member carries no data of its own. *)
Record ClientHandler := mkHandler { socket : SOCKET; clientID : uint8 }.

(** [listeningSocket] is only passed to the socket library and
    [clientsMutex] guards [clients]; neither holds data. *)
Record Server := mkServer {
  clients : list ClientHandler;
  nextClientID : uint8;
  isRunning : bool
}.

(** [Server() : nextClientID(1), isRunning(true)] *)
Definition Server_init : Server := mkServer [] Byte.x01 true.

(** What a server thread asks of the socket layer. *)
Inductive syscall :=
| send (s : SOCKET) (data : list uint8)
| closesocket (s : SOCKET).

(** One turn of the [while] loop of [acceptClients], given what [accept]
    returned; the second component is the handler created, if any. *)
Definition accept_step (clientSocket : SOCKET) (srv : Server)
  : Server * option ClientHandler :=
  if decide (clientSocket ≠ INVALID_SOCKET) then
    let clientID := nextClientID srv in
    let next := uint8_of_Z (uint8_to_Z (nextClientID srv) + 1) in
    let clientHandler := mkHandler clientSocket clientID in
    (mkServer (clients srv ++ [clientHandler]) next (isRunning srv),
     Some clientHandler)
  else (srv, None).

(** [acceptClients], over the successive results of [accept]. *)
Fixpoint acceptClients (accepted : list SOCKET) (srv : Server)
  : Server * list ClientHandler :=
  match accepted with
  | [] => (srv, [])
  | clientSocket :: accepted =>
      if isRunning srv then
        let '(srv, h) := accept_step clientSocket srv in
        let '(srv, hs) := acceptClients accepted srv in
        (srv, option_list h ++ hs)
      else (srv, [])
  end.

(** The [erase]/[remove_if] at the end of [handleClient]. *)
Definition remove_client (id : uint8) (srv : Server) : Server :=
  mkServer (filter (λ ch, clientID ch ≠ id) (clients srv))
    (nextClientID srv) (isRunning srv).

(** The [for] loop of [broadcastMessage]. *)
Fixpoint broadcast_loop (msgSize buffer : list uint8) (excludeID : uint8)
    (clients : list ClientHandler) : list syscall :=
  match clients with
  | [] => []
  | clientHandler :: clients =>
      (if decide (clientID clientHandler ≠ excludeID) then
         [ send (socket clientHandler) msgSize;
           send (socket clientHandler) buffer ]
       else [])
      ++ broadcast_loop msgSize buffer excludeID clients
  end.

Definition broadcastMessage (msg : BaseMessage) (excludeID : uint8)
    (clients : list ClientHandler) : list syscall :=
  let buffer := serializeMessage msg [] in
  let msgSize := htonl (uint32_of_Z (size buffer)) in
  broadcast_loop msgSize buffer excludeID clients.

(** The declaration gives [excludeID] the default value [0]. *)
Definition broadcastMessage_default (msg : BaseMessage)
    (clients : list ClientHandler) : list syscall :=
  broadcastMessage msg Byte.x00 clients.

(** ** Reading from a socket *)

(** What successive [recv] calls on one socket will meet: a segment of
    bytes, an orderly shutdown by the peer ([recv] returns 0) or an error
    ([recv] returns [SOCKET_ERROR]).  A single call is assumed to return
    fewer than [2^31] bytes, so the [int] result is exact. *)
Inductive arrival :=
| Data (seg : list uint8)
| Shutdown
| Failure.

Definition SOCKET_ERROR : Z := -1.

(** [recv(s, buf, len, 0)]: the return value, the bytes stored at [buf], and
    what is left to arrive.  A segment longer than [len] is split. *)
Definition recv (len : Z) (input : list arrival)
  : Z * list uint8 * list arrival :=
  match input with
  | [] => (0, [], [])
  | Shutdown :: input => (0, [], input)
  | Failure :: input => (SOCKET_ERROR, [], input)
  | Data seg :: input =>
      if size seg <=? len then (size seg, seg, input)
      else (len, take (Z.to_nat len) seg,
            Data (drop (Z.to_nat len) seg) :: input)
  end.

(** Storing [data] at [buffer.data() + pos]. *)
Definition store {A} (buffer : list A) (pos : Z) (data : list A) : list A :=
  take (Z.to_nat pos) buffer ++ data
    ++ drop (Z.to_nat pos + length data)%nat buffer.

(** The inner [while (totalReceived < msgSize)] loop; the result is the last
    value of [bytesReceived], the buffer and the remaining input.  [fuel]
    bounds the number of [recv] calls. *)
Fixpoint recv_loop (fuel : nat) (msgSize totalReceived bytesReceived : Z)
    (buffer : list uint8) (input : list arrival)
  : option (Z * list uint8 * list arrival) :=
  match fuel with
  | O => None
  | S fuel =>
      if totalReceived <? msgSize then
        let '(bytesReceived, data, input) :=
          recv (msgSize - totalReceived) input in
        if bytesReceived <=? 0 then Some (bytesReceived, buffer, input)
        else recv_loop fuel msgSize (totalReceived + bytesReceived)
               bytesReceived (store buffer totalReceived data) input
      else Some (bytesReceived, buffer, input)
  end.

(** The framing part of one turn of the outer loop, the same in
    [Server::handleClient] and [Client::receiveMessages]. *)
Inductive frame_read :=
| Frame (buffer : list uint8) (input : list arrival)
| ReadFailed (input : list arrival)
| ShortLength        (* 1 to 3 bytes of [msgSize] stored: the rest of the
                        object is uninitialised and the source reads it *)
| NoFuel.

Definition read_frame (fuel : nat) (input : list arrival) : frame_read :=
  let '(bytesReceived, data, input) := recv 4 input in
  if bytesReceived <=? 0 then ReadFailed input else
  match data with
  | [b0; b1; b2; b3] =>
      let msgSize := ntohl b0 b1 b2 b3 in
      let buffer := replicate (Z.to_nat msgSize) Byte.x00 in
      match recv_loop fuel msgSize 0 bytesReceived buffer input with
      | None => NoFuel
      | Some (bytesReceived, buffer, input) =>
          if bytesReceived <=? 0 then ReadFailed input else Frame buffer input
      end
  | _ => ShortLength
  end.

(** ** Server: connection handler *)

(** Lines 188-195: what [handleClient] does with a frame it has read. *)
Definition relay (clientID : uint8) (clients : list ClientHandler)
    (buffer : list uint8) : list syscall :=
  match deserializeMessage buffer with
  | Some msg =>
      let msg := set_senderID msg clientID in
      broadcastMessage msg clientID clients
  | None => []
  end.

Inductive loop_exit :=
| Stopped            (* [isRunning] was false *)
| Broken             (* a [break] after [recv] returned 0 or less *)
| Indeterminate      (* [msgSize] was read while partly uninitialised *)
| OutOfFuel.

(** The [while (isRunning)] loop of [handleClient].  The registry and the
    flag belong to the server and are changed by other threads only; they
    are held fixed here.  [fuel] bounds the number of turns and, in each
    turn, the number of [recv] calls. *)
Fixpoint handleClient_loop (fuel : nat) (srv : Server) (clientID : uint8)
    (input : list arrival) : list syscall * loop_exit :=
  match fuel with
  | O => ([], OutOfFuel)
  | S fuel' =>
      if isRunning srv then
        match read_frame fuel input with
        | ReadFailed _ => ([], Broken)
        | ShortLength => ([], Indeterminate)
        | NoFuel => ([], OutOfFuel)
        | Frame buffer input =>
            let sent := relay clientID (clients srv) buffer in
            let '(sent', e) := handleClient_loop fuel' srv clientID input in
            (sent ++ sent', e)
        end
      else ([], Stopped)
  end.

(** [handleClient]: the loop, then the removal from the registry and
    [closesocket]. *)
Definition handleClient (fuel : nat) (srv : Server)
    (clientHandler : ClientHandler) (input : list arrival)
  : Server * list syscall * loop_exit :=
  let clientSocket := socket clientHandler in
  let clientID := clientID clientHandler in
  let '(sent, e) := handleClient_loop fuel srv clientID input in
  (remove_client clientID srv, sent ++ [closesocket clientSocket], e).

(** The server as seen from outside: connections accepted and handlers
    leaving, in any order. *)
Inductive server_event :=
| Accepted (clientSocket : SOCKET)
| Left (id : uint8).

Definition server_step (ev : server_event) (srv : Server)
  : Server * option ClientHandler :=
  match ev with
  | Accepted clientSocket => accept_step clientSocket srv
  | Left id => (remove_client id srv, None)
  end.

(** Runs the events in order; also returns the handlers created. *)
Fixpoint server_run (evs : list server_event) (srv : Server)
  : Server * list ClientHandler :=
  match evs with
  | [] => (srv, [])
  | ev :: evs =>
      let '(srv, h) := server_step ev srv in
      let '(srv, hs) := server_run evs srv in
      (srv, option_list h ++ hs)
  end.

(** Number of connections accepted among the events. *)
Fixpoint accepts (evs : list server_event) : nat :=
  match evs with
  | [] => 0%nat
  | Accepted clientSocket :: evs =>
      if decide (clientSocket ≠ INVALID_SOCKET) then S (accepts evs)
      else accepts evs
  | Left _ :: evs => accepts evs
  end.

Definition is_departure (ev : server_event) : bool :=
  match ev with Accepted _ => false | Left _ => true end.

(** ** Client: mailbox and dispatcher *)

(** The three containers of [Client]; [messageMutex] guards them. *)
Record Client := mkClient {
  textMessages : list TextMessage;
  eventMessages : list EventMessage;
  snapshotMessages : gmap uint8 SnapshotMessage
}.

(** What the client threads do that another thread or the user can see:
    taking and releasing [messageMutex], and the three handlers. *)
Inductive client_event :=
| lock
| unlock
| displayTextMessage (tm : TextMessage)
| processEventMessage (em : EventMessage)
| processSnapshotMessage (sm : SnapshotMessage).

(** The [switch] of [sortMessageByType].  [snapshotMessages[id] = *sm]
    creates the entry with the default constructor when it is absent and
    then assigns: either way the entry under [id] becomes [*sm]. *)
Definition sort_switch (msg : BaseMessage) (c : Client) : Client :=
  match msg with
  | Text tm =>
      mkClient (textMessages c ++ [tm]) (eventMessages c) (snapshotMessages c)
  | Event em =>
      mkClient (textMessages c) (eventMessages c ++ [em]) (snapshotMessages c)
  | Snapshot sm =>
      mkClient (textMessages c) (eventMessages c)
        (<[sm_senderID sm := sm]> (snapshotMessages c))
  end.

(** [sortMessageByType]: the [lock_guard] spans the whole body. *)
Definition sortMessageByType (msg : BaseMessage) (c : Client)
  : Client * list client_event :=
  (sort_switch msg c, [lock; unlock]).

(** Lines 180-184 of [receiveMessages]. *)
Definition receive_frame (buffer : list uint8) (c : Client)
  : Client * list client_event :=
  match deserializeMessage buffer with
  | Some msg => sortMessageByType msg c
  | None => (c, [])
  end.

(** Every [uint8_t] value, ascending: the order in which a
    [std::map<uint8_t, _>] is walked from [begin()] to [end()]. *)
Definition all_uint8 : list uint8 := uint8_of_Z <$> seqZ 0 256.

(** The order of the keys of a [std::map<uint8_t, _>]. *)
Definition uint8_lt (a b : uint8) : Prop := uint8_to_Z a < uint8_to_Z b.

#[global] Instance uint8_lt_dec a b : Decision (uint8_lt a b) :=
  Z_lt_dec (uint8_to_Z a) (uint8_to_Z b).

(** The entries of the map in iteration order. *)
Definition map_entries {V} (m : gmap uint8 V) : list (uint8 * V) :=
  omap (λ k, (λ v, (k, v)) <$> m !! k) all_uint8.

(** The first [for] loop of [processMessages]: handle the front element,
    erase it, go on with the new front.  Returns what is left. *)
Fixpoint text_loop (v : list TextMessage)
  : list TextMessage * list client_event :=
  match v with
  | [] => ([], [])
  | tm :: v =>
      let '(v, tr) := text_loop v in (v, displayTextMessage tm :: tr)
  end.

Fixpoint event_loop (v : list EventMessage)
  : list EventMessage * list client_event :=
  match v with
  | [] => ([], [])
  | em :: v =>
      let '(v, tr) := event_loop v in (v, processEventMessage em :: tr)
  end.

(** The third loop walks the map by ascending key; [keys] are the keys not
    yet passed.  A key that is present is handled and erased. *)
Fixpoint snapshot_loop (keys : list uint8) (m : gmap uint8 SnapshotMessage)
  : gmap uint8 SnapshotMessage * list client_event :=
  match keys with
  | [] => (m, [])
  | k :: keys =>
      match m !! k with
      | Some sm =>
          let '(m, tr) := snapshot_loop keys (delete k m) in
          (m, processSnapshotMessage sm :: tr)
      | None => snapshot_loop keys m
      end
  end.

(** One turn of the [while (isConnected)] loop of [processMessages], up to
    the [sleep_for]: the block that holds the [lock_guard]. *)
Definition processMessages_turn (c : Client) : Client * list client_event :=
  let '(texts, tr1) := text_loop (textMessages c) in
  let '(events, tr2) := event_loop (eventMessages c) in
  let '(snapshots, tr3) := snapshot_loop all_uint8 (snapshotMessages c) in
  (mkClient texts events snapshots, [lock] ++ tr1 ++ tr2 ++ tr3 ++ [unlock]).

Definition is_handler_call (ev : client_event) : bool :=
  match ev with
  | lock | unlock => false
  | _ => true
  end.

(** For each handler call of a trace, whether [messageMutex] was held when
    it was made; [held] is the state of the mutex before the trace. *)
Fixpoint held_at_calls (held : bool) (tr : list client_event) : list bool :=
  match tr with
  | [] => []
  | lock :: tr => held_at_calls true tr
  | unlock :: tr => held_at_calls false tr
  | _ :: tr => held :: held_at_calls held tr
  end.

(** The handler calls of a trace, in order. *)
Definition handler_calls (tr : list client_event) : list client_event :=
  filter (λ ev, is_handler_call ev = true) tr.

(** ** Vocabulary of the statements *)

(** The kind bytes that [deserializeMessage] has a [case] for. *)
Definition kind_known (k : uint8) : bool :=
  bool_decide (k = TEXT_MESSAGE ∨ k = EVENT_MESSAGE ∨ k = SNAPSHOT_MESSAGE).

Definition kind_byte_known (buffer : list uint8) : bool :=
  match buffer with k :: _ => kind_known k | [] => false end.

(** The payload length a buffer declares: the big-endian field at offset 2. *)
Definition declared_length (buffer : list uint8) : Z := read_length buffer 2.

(** The message of the class selected by a known kind byte [k]. *)
Definition make_message (k sender : uint8) (data : list uint8) : BaseMessage :=
  match uint8_to_Z k with
  | 0 => Text (mkText sender data)
  | 1 => Event (mkEvent sender data)
  | _ => Snapshot (mkSnapshot sender data)
  end.

(** A text message whose payload is [2^32] zero bytes. *)
Definition huge_text : BaseMessage :=
  Text (mkText Byte.x00 (replicate (Z.to_nat (2 ^ 32)) Byte.x00)).

(** What [broadcastMessage] and [sendMessage] put on a socket for one
    message: the stream length field, then the encoded message. *)
Definition frame_of (msg : BaseMessage) : list uint8 :=
  htonl (uint32_of_Z (size (encode msg))) ++ encode msg.

(** The bytes a trace writes to socket [s], in order. *)
Fixpoint sent_to (s : SOCKET) (tr : list syscall) : list uint8 :=
  match tr with
  | [] => []
  | send s' data :: tr =>
      (if decide (s' = s) then data else []) ++ sent_to s tr
  | closesocket _ :: tr => sent_to s tr
  end.

(** The two [send] calls that deliver [msg] to one handler. *)
Definition deliver (msg : BaseMessage) (ch : ClientHandler) : list syscall :=
  [ send (socket ch) (htonl (uint32_of_Z (size (encode msg))));
    send (socket ch) (encode msg) ].

(** A bound on the [recv] calls an input can answer with data: one per
    item and one per byte. *)
Fixpoint weight (input : list arrival) : nat :=
  match input with
  | [] => 0%nat
  | Data seg :: input => S (length seg + weight input)
  | _ :: input => S (weight input)
  end.

(** Classifying a run of received messages, oldest first. *)
Definition sort_all (msgs : list BaseMessage) (c : Client) : Client :=
  foldl (λ c msg, (sortMessageByType msg c).1) c msgs.

(** The mailbox with nothing in it. *)
Definition Client_empty : Client := mkClient [] [] ∅.

(** Number of entries the three containers hold. *)
Definition pending (c : Client) : nat :=
  (length (textMessages c) + length (eventMessages c)
   + length (map_entries (snapshotMessages c)))%nat.

(** ** Client: sending and the receive loop *)






(** ** Server: shutdown *)


(** ** Further vocabulary *)

(** One message on the wire, as the two [send] calls of [sendMessage] and
    [broadcastMessage] present it to the reader: the length field, then the
    encoded message. *)
Definition wire (msg : BaseMessage) : list arrival :=
  [ Data (htonl (uint32_of_Z (size (encode msg)))); Data (encode msg) ].



(** The bytes an input holds before its first shutdown, failure or empty
    segment, and what follows them. *)
Fixpoint avail (input : list arrival) : list uint8 :=
  match input with
  | Data (b :: seg) :: input => (b :: seg) ++ avail input
  | _ => []
  end.

Fixpoint after (input : list arrival) : list arrival :=
  match input with
  | Data (_ :: _) :: input => after input
  | _ => input
  end.

(** The messages of each kind in a run of messages, in order. *)
Definition texts_in (msgs : list BaseMessage) : list TextMessage :=
  omap (λ msg, match msg with Text tm => Some tm | _ => None end) msgs.

Definition events_in (msgs : list BaseMessage) : list EventMessage :=
  omap (λ msg, match msg with Event em => Some em | _ => None end) msgs.

Definition snapshots_in (msgs : list BaseMessage) : list SnapshotMessage :=
  omap (λ msg, match msg with Snapshot sm => Some sm | _ => None end) msgs.

(** The last snapshot of sender [S] in a run of messages. *)
Definition last_snapshot (S : uint8) (msgs : list BaseMessage)
  : option SnapshotMessage :=
  last (filter (λ sm, sm_senderID sm = S) (snapshots_in msgs)).

(** [accept] never returns a socket that is still registered: the property
    of a run of events that each socket accepted is new to the registry of
    its moment. *)
Fixpoint fresh_sockets (evs : list server_event) (srv : Server) : Prop :=
  match evs with
  | [] => True
  | ev :: evs =>
      match ev with
      | Accepted s => s = INVALID_SOCKET ∨ s ∉ socket <$> clients srv
      | Left _ => True
      end
      ∧ fresh_sockets evs (server_step ev srv).1
  end.

(** * Properties *)

(** Closed decidable facts, by evaluation. *)
Ltac decide_by_compute :=
  match goal with
  | |- ?P => apply (bool_decide_unpack P); vm_compute; exact I
  end.

(** ** Fixed-width integers *)

Lemma uint8_to_Z_range b : 0 ≤ uint8_to_Z b < 256.
Proof.
  unfold uint8_to_Z. pose proof (Byte.to_N_bounded b). lia.
Qed.

Lemma uint8_of_to b : uint8_of_Z (uint8_to_Z b) = b.
Proof.
  unfold uint8_of_Z. pose proof (uint8_to_Z_range b).
  rewrite Z.mod_small by done. unfold uint8_to_Z.
  by rewrite N2Z.id, Byte.of_to_N.
Qed.

Lemma uint8_to_of z : uint8_to_Z (uint8_of_Z z) = z mod 256.
Proof.
  unfold uint8_of_Z, uint8_to_Z.
  pose proof (Z.mod_pos_bound z 256 eq_refl).
  destruct (Byte.of_N (Z.to_N (z mod 256))) as [b|] eqn:E; simpl.
  - apply Byte.to_of_N in E. rewrite E. lia.
  - apply Byte.of_N_None_iff in E. lia.
Qed.

Lemma uint8_to_Z_inj a b : uint8_to_Z a = uint8_to_Z b → a = b.
Proof. intros H. by rewrite <- (uint8_of_to a), <- (uint8_of_to b), H. Qed.

Lemma lor_shiftl_add a b n :
  0 ≤ n → 0 ≤ b < 2 ^ n → Z.lor (Z.shiftl a n) b = a * 2 ^ n + b.
Proof.
  intros Hn Hb.
  assert (Hland : Z.land (Z.shiftl a n) b = 0).
  { apply Z.bits_inj'. intros i Hi.
    rewrite Z.land_spec, Z.bits_0.
    destruct (Z.lt_ge_cases i n) as [Hlt|Hge].
    - by rewrite Z.shiftl_spec_low.
    - assert (Z.testbit b i = false) as ->; [|apply andb_false_r].
      destruct (Z.eq_dec b 0) as [->|Hnz]; [apply Z.bits_0|].
      apply Z.bits_above_log2; [lia|].
      apply Z.log2_lt_pow2; [lia|].
      apply Z.lt_le_trans with (2 ^ n); [lia|].
      apply Z.pow_le_mono_r; lia. }
  rewrite <- Z.lxor_lor, <- Z.add_nocarry_lxor by done.
  by rewrite Z.shiftl_mul_pow2.
Qed.

Lemma ntohl_value b0 b1 b2 b3 :
  ntohl b0 b1 b2 b3 =
  uint8_to_Z b0 * 2 ^ 24 + uint8_to_Z b1 * 2 ^ 16
  + uint8_to_Z b2 * 2 ^ 8 + uint8_to_Z b3.
Proof.
  unfold ntohl.
  pose proof (uint8_to_Z_range b0). pose proof (uint8_to_Z_range b1).
  pose proof (uint8_to_Z_range b2). pose proof (uint8_to_Z_range b3).
  rewrite (lor_shiftl_add _ _ 8) by lia.
  rewrite (lor_shiftl_add _ _ 16) by lia.
  rewrite (lor_shiftl_add _ _ 24) by lia.
  lia.
Qed.

Lemma ntohl_range b0 b1 b2 b3 : 0 ≤ ntohl b0 b1 b2 b3 < 2 ^ 32.
Proof.
  rewrite ntohl_value.
  pose proof (uint8_to_Z_range b0). pose proof (uint8_to_Z_range b1).
  pose proof (uint8_to_Z_range b2). pose proof (uint8_to_Z_range b3).
  lia.
Qed.

Lemma ntohl_htonl x :
  0 ≤ x < 2 ^ 32 →
  ∃ b0 b1 b2 b3, htonl x = [b0; b1; b2; b3] ∧ ntohl b0 b1 b2 b3 = x.
Proof.
  intros Hx. eexists _, _, _, _. split; [reflexivity|].
  rewrite ntohl_value, !uint8_to_of, !Z.shiftr_div_pow2 by lia.
  change (2 ^ 24) with (256 * (256 * 256)). change (2 ^ 16) with (256 * 256).
  change (2 ^ 8) with 256. change (2 ^ 32) with 4294967296 in Hx.
  rewrite <- !Z.div_div by lia.
  set (q1 := x / 256). set (q2 := q1 / 256). set (q3 := q2 / 256).
  pose proof (Z.div_mod x 256 ltac:(lia)) as E1.
  pose proof (Z.div_mod q1 256 ltac:(lia)) as E2.
  pose proof (Z.div_mod q2 256 ltac:(lia)) as E3.
  pose proof (Z.mod_pos_bound x 256 ltac:(lia)).
  pose proof (Z.mod_pos_bound q1 256 ltac:(lia)).
  pose proof (Z.mod_pos_bound q2 256 ltac:(lia)).
  fold q1 in E1. fold q2 in E2. fold q3 in E3.
  assert (0 ≤ q3 < 256) by lia.
  rewrite (Z.mod_small q3) by lia. lia.
Qed.

Lemma read_length_range buffer offset : 0 ≤ read_length buffer offset < 2 ^ 32.
Proof.
  unfold read_length.
  destruct (drop _ buffer) as [|b0 [|b1 [|b2 [|b3 ?]]]]; try done.
  apply ntohl_range.
Qed.

Lemma read_block_header buffer :
  read_block buffer 2 =
  if size buffer <? 6 then None
  else if size buffer <? 6 + declared_length buffer then None
  else Some (take (Z.to_nat (declared_length buffer)) (drop 6 buffer)).
Proof.
  unfold read_block, declared_length, range.
  change (size_add 2 4) with 6.
  pose proof (read_length_range buffer 2) as Hr.
  change (2 ^ 32) with 4294967296 in Hr.
  assert (size_add 6 (read_length buffer 2) = 6 + read_length buffer 2) as ->.
  { unfold size_add. apply Z.mod_small.
    change (2 ^ 64) with 18446744073709551616. lia. }
  replace (6 + read_length buffer 2 - 6) with (read_length buffer 2) by lia.
  done.
Qed.

Lemma kind_cases (k : uint8) :
  (uint8_to_Z k = 0 ∧ k = TEXT_MESSAGE) ∨ (uint8_to_Z k = 1 ∧ k = EVENT_MESSAGE)
  ∨ (uint8_to_Z k = 2 ∧ k = SNAPSHOT_MESSAGE)
  ∨ (3 ≤ uint8_to_Z k ∧ kind_known k = false).
Proof.
  pose proof (uint8_to_Z_range k).
  destruct (decide (uint8_to_Z k = 0)) as [E|?];
    [left; split; [done|by apply uint8_to_Z_inj]|].
  destruct (decide (uint8_to_Z k = 1)) as [E|?];
    [right; left; split; [done|by apply uint8_to_Z_inj]|].
  destruct (decide (uint8_to_Z k = 2)) as [E|?];
    [right; right; left; split; [done|by apply uint8_to_Z_inj]|].
  right; right; right. split; [lia|].
  unfold kind_known. apply bool_decide_eq_false.
  intros [->| [->| ->]]; done.
Qed.

Lemma deserializeMessage_unfold buffer :
  deserializeMessage buffer =
  match buffer with
  | k :: sender :: _ =>
      if kind_known k then make_message k sender <$> read_block buffer 2
      else None
  | _ => None
  end.
Proof.
  unfold deserializeMessage.
  destruct buffer as [|k [|sender rest]]; try done.
  assert ((size (k :: sender :: rest) <? 2) = false) as ->.
  { apply Z.ltb_ge. unfold size. simpl length. lia. }
  unfold make_message.
  destruct (kind_cases k) as [[E ->]|[[E ->]|[[E ->]|[E ->]]]];
    try (rewrite E; destruct (read_block _ 2); done).
  revert E. generalize (uint8_to_Z k). intros z Hz.
  destruct z as [|[p|[p|p|]|]|p]; try done; lia.
Qed.

Lemma encode_eq msg :
  encode msg =
  messageType msg :: senderID msg
    :: htonl (uint32_of_Z (size (payload msg))) ++ payload msg.
Proof. by destruct msg. Qed.

Lemma make_message_eq msg :
  make_message (messageType msg) (senderID msg) (payload msg) = msg.
Proof. by destruct msg as [[]|[]|[]]. Qed.

Lemma kind_known_messageType msg : kind_known (messageType msg) = true.
Proof. by destruct msg. Qed.

Lemma uint32_of_Z_range z : 0 ≤ uint32_of_Z z < 2 ^ 32.
Proof. apply Z.mod_pos_bound. done. Qed.

Lemma size_nonneg {A} (v : list A) : 0 ≤ size v.
Proof. unfold size. lia. Qed.

Lemma size_app {A} (v w : list A) : size (v ++ w) = size v + size w.
Proof. unfold size. rewrite length_app. lia. Qed.

Lemma decode_encode_general msg :
  deserializeMessage (encode msg) =
  Some (make_message (messageType msg) (senderID msg)
          (take (Z.to_nat (uint32_of_Z (size (payload msg)))) (payload msg))).
Proof.
  rewrite encode_eq, deserializeMessage_unfold, kind_known_messageType.
  destruct (ntohl_htonl _ (uint32_of_Z_range (size (payload msg))))
    as (b0 & b1 & b2 & b3 & -> & Hlen).
  rewrite read_block_header.
  set (buffer := _ :: _ :: _).
  assert (declared_length buffer = uint32_of_Z (size (payload msg))) as ->
    by done.
  assert (size buffer = 6 + size (payload msg)) as ->.
  { unfold buffer, size. simpl length. lia. }
  pose proof (size_nonneg (payload msg)).
  assert (uint32_of_Z (size (payload msg)) ≤ size (payload msg)).
  { unfold uint32_of_Z. apply Z.mod_le; lia. }
  destruct (Z.ltb_spec (6 + size (payload msg)) 6); [lia|].
  destruct (Z.ltb_spec (6 + size (payload msg))
              (6 + uint32_of_Z (size (payload msg)))); [lia|].
  done.
Qed.

(** C1, as the code has it.  For every message of kind Text, Event or
    Snapshot, with any sender byte and any payload of fewer than [2^32]
    bytes (the empty payload included), decoding the encoded frame gives
    the message back: same kind, same sender, same payload bytes. *)
Theorem decode_encode (msg : BaseMessage) :
  size (payload msg) < 2 ^ 32 →
  deserializeMessage (encode msg) = Some msg.
Proof.
  intros Hlt. rewrite decode_encode_general.
  unfold uint32_of_Z.
  rewrite Z.mod_small by (pose proof (size_nonneg (payload msg)); lia).
  unfold size. rewrite Nat2Z.id, firstn_all.
  by rewrite make_message_eq.
Qed.

Lemma decode_encode_witness :
  let msg := Snapshot (mkSnapshot Byte.x07 [Byte.x01; Byte.x02; Byte.x03]) in
  size (payload msg) < 2 ^ 32 ∧ deserializeMessage (encode msg) = Some msg.
Proof.
  intros msg.
  assert (Hlt : size (payload msg) < 2 ^ 32) by reflexivity.
  split; [exact Hlt|exact (decode_encode msg Hlt)].
Defined.

(** The length field holds the payload size modulo [2^32]: a payload of
    exactly [2^32] bytes is announced as empty. *)
Lemma decode_encode_wrapped (sender : uint8) (n : nat) :
  Z.of_nat n = 2 ^ 32 →
  let msg := Text (mkText sender (replicate n Byte.x00)) in
  deserializeMessage (encode msg) = Some (Text (mkText sender []))
  ∧ deserializeMessage (encode msg) ≠ Some msg.
Proof.
  intros Hn msg.
  assert (E : deserializeMessage (encode msg) = Some (Text (mkText sender []))).
  { rewrite decode_encode_general.
    assert (uint32_of_Z (size (payload msg)) = 0) as ->.
    { unfold msg, payload, text, size.
      rewrite length_replicate, Hn. done. }
    done. }
  split; [done|].
  rewrite E. unfold msg. intros [=H].
  apply (f_equal length) in H. rewrite length_replicate in H.
  simpl length in H. lia.
Qed.

(** C1, as stated, fails for a payload of [2^32] bytes: the frame decodes,
    but to a message with an empty payload. *)
Lemma decode_encode_counterexample :
  deserializeMessage (encode huge_text) = Some (Text (mkText Byte.x00 []))
  ∧ deserializeMessage (encode huge_text) ≠ Some huge_text.
Proof.
  apply (decode_encode_wrapped Byte.x00 (Z.to_nat (2 ^ 32))).
  apply Z2Nat.id. done.
Qed.

Lemma deserializeMessage_Some buffer msg :
  deserializeMessage buffer = Some msg ↔
  ∃ k sender rest, buffer = k :: sender :: rest ∧ kind_known k = true
    ∧ 6 + declared_length buffer ≤ size buffer
    ∧ msg = make_message k sender
              (take (Z.to_nat (declared_length buffer)) (drop 6 buffer)).
Proof.
  rewrite deserializeMessage_unfold, read_block_header.
  pose proof (read_length_range buffer 2) as Hr. fold (declared_length buffer) in Hr.
  split.
  - destruct buffer as [|k [|sender rest]]; try done.
    destruct (kind_known k) eqn:Hk; [|done].
    destruct (Z.ltb_spec (size (k :: sender :: rest)) 6); [done|].
    destruct (Z.ltb_spec (size (k :: sender :: rest))
                (6 + declared_length (k :: sender :: rest))); [done|].
    intros [= <-]. by eexists _, _, _.
  - intros (k & sender & rest & -> & -> & Hsz & ->).
    destruct (Z.ltb_spec (size (k :: sender :: rest)) 6); [lia|].
    destruct (Z.ltb_spec (size (k :: sender :: rest))
                (6 + declared_length (k :: sender :: rest))); [lia|].
    done.
Qed.

Lemma deserializeMessage_None buffer :
  deserializeMessage buffer = None ↔
    size buffer < 2
    ∨ (kind_byte_known buffer = true ∧ size buffer < 2 + 4)
    ∨ (6 ≤ size buffer ∧ size buffer - 6 < declared_length buffer)
    ∨ (2 ≤ size buffer ∧ kind_byte_known buffer = false).
Proof.
  rewrite deserializeMessage_unfold, read_block_header.
  destruct buffer as [|k [|sender rest]].
  - split; [left; by unfold size|done].
  - split; [left; by unfold size|done].
  - set (buffer := k :: sender :: rest).
    assert (2 ≤ size buffer) by (unfold buffer, size; simpl length; lia).
    change (kind_byte_known buffer) with (kind_known k).
    destruct (kind_known k).
    + destruct (Z.ltb_spec (size buffer) 6);
        [split; [right; left; split; [done|lia]|done]|].
      destruct (Z.ltb_spec (size buffer) (6 + declared_length buffer)).
      * split; [right; right; left; lia|done].
      * split; [done|]. intros [?|[[_ ?]|[[_ ?]|[_ ?]]]]; try lia; done.
    + split; [by right; right; right|done].
Qed.

Lemma take_header (n : nat) (buffer : list uint8) :
  (6 ≤ n)%nat →
  kind_byte_known (take n buffer) = kind_byte_known buffer
  ∧ declared_length (take n buffer) = declared_length buffer.
Proof.
  intros Hn. do 6 (destruct n as [|n]; [lia|]).
  by destruct buffer as [|b0 [|b1 [|b2 [|b3 [|b4 [|b5 rest]]]]]].
Qed.

(** C5.  [deserializeMessage] is total and returns no message exactly when
    the buffer has fewer than 2 bytes, or its kind byte is known and it has
    fewer than 2 + 4 bytes, or the length declared at offset 2 exceeds the
    bytes present after offset 6, or its kind byte is none of 0, 1, 2.  In
    particular every prefix of a decodable buffer that stops before the end
    of the declared payload fails to decode. *)
Theorem decode_failure (buffer : list uint8) :
  (deserializeMessage buffer = None ↔
     size buffer < 2
     ∨ (kind_byte_known buffer = true ∧ size buffer < 2 + 4)
     ∨ (6 ≤ size buffer ∧ size buffer - 6 < declared_length buffer)
     ∨ (2 ≤ size buffer ∧ kind_byte_known buffer = false))
  ∧ (∀ msg (n : nat),
       deserializeMessage buffer = Some msg →
       Z.of_nat n < 6 + declared_length buffer →
       deserializeMessage (take n buffer) = None).
Proof.
  split; [apply deserializeMessage_None|].
  intros msg n (k & sender & rest & -> & Hk & Hsz & _)%deserializeMessage_Some Hn.
  set (buffer := k :: sender :: rest) in *.
  assert (Hlen : size (take n buffer) = Z.of_nat n).
  { unfold size in *. rewrite length_take. lia. }
  apply deserializeMessage_None. rewrite Hlen.
  destruct (decide (n < 2)%nat); [left; lia|].
  destruct (decide (n < 6)%nat).
  - right; left. split; [|lia].
    destruct n as [|n]; [lia|]. done.
  - right; right; left.
    destruct (take_header n buffer) as [_ ->]; lia.
Qed.

Lemma decode_failure_witness :
  let buffer := encode (Text (mkText Byte.x01 [Byte.x68; Byte.x69])) in
  deserializeMessage buffer = Some (Text (mkText Byte.x01 [Byte.x68; Byte.x69]))
  ∧ Z.of_nat 7 < 6 + declared_length buffer
  ∧ deserializeMessage (take 7 buffer) = None.
Proof.
  intros buffer.
  assert (Hdec : deserializeMessage buffer
                 = Some (Text (mkText Byte.x01 [Byte.x68; Byte.x69])))
    by reflexivity.
  assert (Hlt : Z.of_nat 7 < 6 + declared_length buffer) by reflexivity.
  split; [exact Hdec|]. split; [exact Hlt|].
  exact (proj2 (decode_failure buffer) _ 7%nat Hdec Hlt).
Defined.

(** C6, as the code has it.  When a buffer decodes, its first two bytes are
    the kind and the sender of the message, it holds at least 6 plus the
    declared length bytes, and the payload of the message is exactly the
    declared number of bytes that follow offset 6 (none, when the declared
    length is zero).  Bytes after the payload are accepted and ignored:
    the buffer followed by anything decodes to the same message. *)
Theorem decode_success (buffer : list uint8) (msg : BaseMessage) :
  deserializeMessage buffer = Some msg →
  buffer !! 0%nat = Some (messageType msg)
  ∧ buffer !! 1%nat = Some (senderID msg)
  ∧ 6 + declared_length buffer ≤ size buffer
  ∧ payload msg = take (Z.to_nat (declared_length buffer)) (drop 6 buffer)
  ∧ size (payload msg) = declared_length buffer
  ∧ (∀ trailing, deserializeMessage (buffer ++ trailing) = Some msg).
Proof.
  intros (k & sender & rest & -> & Hk & Hsz & ->)%deserializeMessage_Some.
  set (buffer := k :: sender :: rest) in *.
  pose proof (read_length_range buffer 2) as Hr. fold (declared_length buffer) in Hr.
  assert (Hpay : ∀ data, payload (make_message k sender data) = data).
  { intros data. unfold make_message.
    by destruct (uint8_to_Z k) as [|[?|[?|?|]|]|?]. }
  assert (Hty : messageType (make_message k sender
      (take (Z.to_nat (declared_length buffer)) (drop 6 buffer))) = k).
  { destruct (kind_cases k) as [[E ->]|[[E ->]|[[E ->]|[E E']]]];
      [done|done|done|congruence]. }
  assert (Hsnd : ∀ data, senderID (make_message k sender data) = sender).
  { intros data. unfold make_message.
    by destruct (uint8_to_Z k) as [|[?|[?|?|]|]|?]. }
  rewrite Hpay, Hsnd, Hty.
  assert (Hdrop : (Z.to_nat (declared_length buffer)
                   ≤ length (drop 6 buffer))%nat).
  { rewrite length_drop. unfold size in Hsz. lia. }
  split_and!; try done.
  - unfold size. rewrite length_take. lia.
  - intros trailing. apply deserializeMessage_Some.
    exists k, sender, (rest ++ trailing). split; [done|]. split; [done|].
    change (k :: sender :: rest ++ trailing) with (buffer ++ trailing).
    assert (declared_length (buffer ++ trailing) = declared_length buffer) as ->.
    { unfold size in Hsz.
      destruct buffer as [|b0 [|b1 [|b2 [|b3 [|b4 [|b5 rest']]]]]];
        simpl length in Hsz; try lia. done. }
    split; [rewrite size_app; pose proof (size_nonneg trailing); lia|].
    f_equal. rewrite drop_app_le by (unfold size in Hsz; lia).
    by rewrite take_app_le.
Qed.

Lemma decode_success_witness :
  let buffer := [Byte.x02; Byte.x09; Byte.x00; Byte.x00; Byte.x00; Byte.x02;
                 Byte.x0a; Byte.x0b] in
  let msg := Snapshot (mkSnapshot Byte.x09 [Byte.x0a; Byte.x0b]) in
  deserializeMessage buffer = Some msg
  ∧ size (payload msg) = declared_length buffer
  ∧ deserializeMessage (buffer ++ [Byte.xff; Byte.xfe]) = Some msg.
Proof.
  intros buffer msg.
  assert (Hdec : deserializeMessage buffer = Some msg) by reflexivity.
  destruct (decode_success buffer msg Hdec) as (_ & _ & _ & _ & Hlen & Htrail).
  split; [exact Hdec|]. split; [exact Hlen|apply Htrail].
Defined.

(** C6, as stated, fails on trailing bytes: a 7-byte buffer that declares an
    empty payload decodes, with one byte left over. *)
Lemma trailing_bytes_counterexample :
  let buffer := [Byte.x00; Byte.x00; Byte.x00; Byte.x00; Byte.x00; Byte.x00;
                 Byte.xff] in
  deserializeMessage buffer = Some (Text (mkText Byte.x00 []))
  ∧ declared_length buffer = 0
  ∧ size buffer = 7
  ∧ size buffer ≠ 6 + declared_length buffer.
Proof. by vm_compute. Qed.

(** ** Broadcast *)

Section Broadcast.
Context (msg : BaseMessage) (excludeID : uint8).

Lemma broadcastMessage_bind clients :
  broadcastMessage msg excludeID clients =
  filter (λ ch, clientID ch ≠ excludeID) clients ≫= deliver msg.
Proof.
  unfold broadcastMessage. fold (encode msg).
  induction clients as [|ch clients IH]; [done|].
  simpl broadcast_loop. rewrite IH, filter_cons.
  by destruct (decide (clientID ch ≠ excludeID)).
Qed.

Lemma sent_to_deliver s ch :
  sent_to s (deliver msg ch) = if decide (socket ch = s) then frame_of msg else [].
Proof.
  unfold deliver, frame_of. simpl.
  destruct (decide (socket ch = s)); [|done].
  by rewrite app_nil_r.
Qed.

Lemma sent_to_app s tr1 tr2 : sent_to s (tr1 ++ tr2) = sent_to s tr1 ++ sent_to s tr2.
Proof.
  induction tr1 as [|[s' data|s'] tr1 IH]; simpl; [done| |done].
  by rewrite IH, app_assoc.
Qed.

Lemma sent_to_stranger s clients :
  s ∉ socket <$> clients →
  sent_to s (broadcastMessage msg excludeID clients) = [].
Proof.
  rewrite broadcastMessage_bind.
  induction clients as [|ch clients IH]; [done|].
  rewrite fmap_cons, not_elem_of_cons. intros [Hne Hnot].
  rewrite filter_cons.
  destruct (decide (clientID ch ≠ excludeID)); [|by apply IH].
  rewrite bind_cons, sent_to_app, sent_to_deliver, IH by done.
  by destruct (decide (socket ch = s)).
Qed.

Lemma sent_to_member clients ch :
  NoDup (socket <$> clients) → ch ∈ clients →
  sent_to (socket ch) (broadcastMessage msg excludeID clients) =
  if decide (clientID ch ≠ excludeID) then frame_of msg else [].
Proof.
  induction clients as [|ch' clients IH]; [by intros _ ?%elem_of_nil|].
  rewrite fmap_cons, NoDup_cons. intros [Hfresh Hnd] Hin.
  pose proof (sent_to_stranger (socket ch') clients Hfresh) as Hrest.
  rewrite broadcastMessage_bind in *. rewrite filter_cons.
  apply elem_of_cons in Hin as [->|Hin].
  - destruct (decide (clientID ch' ≠ excludeID)); [|done].
    rewrite bind_cons, sent_to_app, sent_to_deliver, Hrest, app_nil_r.
    by rewrite decide_True.
  - assert (socket ch' ≠ socket ch).
    { intros E. apply Hfresh. rewrite E. by apply list_elem_of_fmap_2. }
    destruct (decide (clientID ch' ≠ excludeID)); [|by apply IH].
    rewrite bind_cons, sent_to_app, sent_to_deliver, decide_False by done.
    by apply IH.
Qed.
Lemma sent_to_broadcast s clients :
  sent_to s (broadcastMessage msg excludeID clients) =
  filter (λ ch, socket ch = s ∧ clientID ch ≠ excludeID) clients
    ≫= (λ _, frame_of msg).
Proof.
  rewrite broadcastMessage_bind.
  induction clients as [|ch clients IH]; [done|].
  rewrite !filter_cons.
  destruct (decide (clientID ch ≠ excludeID)) as [Hid|Hid].
  - rewrite bind_cons, sent_to_app, sent_to_deliver, IH.
    destruct (decide (socket ch = s)) as [Hs|Hs].
    + by rewrite decide_True.
    + rewrite decide_False; [done|]. by intros [? _].
  - rewrite decide_False; [done|]. by intros [_ ?].
Qed.
End Broadcast.

(** C3.  [broadcastMessage msg X] makes, in registry order, the two [send]
    calls of the length-prefixed frame for each registered handler whose id
    differs from [X], and no other call: a socket receives the frame once
    per registered handler that owns it and has an id other than [X], and a
    socket that is not in the registry receives nothing.  When the
    registered sockets are pairwise distinct, as open sockets are, a
    registered connection whose id is not [X] receives exactly the frame
    and one whose id is [X] receives nothing. *)
Theorem broadcast_exclusion (msg : BaseMessage) (X : uint8)
    (clients : list ClientHandler) :
  broadcastMessage msg X clients
    = filter (λ ch, clientID ch ≠ X) clients ≫= deliver msg
  ∧ (∀ s, sent_to s (broadcastMessage msg X clients)
          = filter (λ ch, socket ch = s ∧ clientID ch ≠ X) clients
              ≫= (λ _, frame_of msg))
  ∧ (∀ s, s ∉ socket <$> clients →
       sent_to s (broadcastMessage msg X clients) = [])
  ∧ (NoDup (socket <$> clients) →
       (∀ ch, ch ∈ clients → clientID ch ≠ X →
          sent_to (socket ch) (broadcastMessage msg X clients) = frame_of msg)
       ∧ (∀ ch, ch ∈ clients → clientID ch = X →
          sent_to (socket ch) (broadcastMessage msg X clients) = [])).
Proof.
  split_and!.
  - apply broadcastMessage_bind.
  - intros s. apply sent_to_broadcast.
  - intros s. apply sent_to_stranger.
  - intros Hnd. split.
    + intros ch Hin Hid. rewrite sent_to_member by done. by rewrite decide_True.
    + intros ch Hin Hid. rewrite sent_to_member by done.
      rewrite decide_False; [done|]. by intros ?.
Qed.

Lemma broadcast_exclusion_witness :
  let clients := [mkHandler 10 Byte.x01; mkHandler 11 Byte.x02;
                  mkHandler 12 Byte.x03] in
  let msg := Text (mkText Byte.x02 [Byte.x68; Byte.x69]) in
  NoDup (socket <$> clients)
  ∧ sent_to 10 (broadcastMessage msg Byte.x02 clients) = frame_of msg
  ∧ sent_to 11 (broadcastMessage msg Byte.x02 clients) = []
  ∧ sent_to 12 (broadcastMessage msg Byte.x02 clients) = frame_of msg
  ∧ sent_to 13 (broadcastMessage msg Byte.x02 clients) = [].
Proof.
  intros clients msg.
  assert (Hnd : NoDup (socket <$> clients)) by decide_by_compute.
  destruct (broadcast_exclusion msg Byte.x02 clients)
    as (_ & _ & Hout & Hreg).
  destruct (Hreg Hnd) as [Hin Hex].
  split; [exact Hnd|]. split_and!.
  - apply (Hin (mkHandler 10 Byte.x01)); [repeat constructor|done].
  - apply (Hex (mkHandler 11 Byte.x02)); [repeat constructor|done].
  - apply (Hin (mkHandler 12 Byte.x03)); [repeat constructor|done].
  - apply Hout. decide_by_compute.
Defined.

(** ** Connection registry *)

Lemma uint8_succ_to_Z (b : uint8) :
  uint8_to_Z (uint8_of_Z (uint8_to_Z b + 1)) = (uint8_to_Z b + 1) mod 256.
Proof. apply uint8_to_of. Qed.

Lemma server_run_cons ev evs srv :
  server_run (ev :: evs) srv =
  let r := server_step ev srv in
  let r' := server_run evs r.1 in
  (r'.1, option_list r.2 ++ r'.2).
Proof.
  simpl. destruct (server_step ev srv) as [srv1 h]. simpl.
  by destruct (server_run evs srv1).
Qed.

Lemma filter_all {A} (P : A → Prop) `{!∀ x, Decision (P x)} (l : list A) :
  (∀ x, x ∈ l → P x) → filter P l = l.
Proof.
  induction l as [|x l IH]; [done|]. intros Hall.
  rewrite filter_cons_True by (apply Hall; constructor).
  rewrite IH; [done|]. intros y Hy. apply Hall. by constructor.
Qed.

(** While the server runs, [acceptClients] is a run of [Accepted] events. *)
Lemma acceptClients_run accepted srv :
  isRunning srv = true →
  acceptClients accepted srv = server_run (Accepted <$> accepted) srv.
Proof.
  revert srv. induction accepted as [|s accepted IH]; intros srv Hrun; [done|].
  simpl. rewrite Hrun.
  assert (isRunning (accept_step s srv).1 = true) as Hrun'.
  { unfold accept_step. by destruct (decide (s ≠ INVALID_SOCKET)). }
  destruct (accept_step s srv) as [srv1 h]. by rewrite IH.
Qed.

(** The ids handed out by a run are consecutive from [nextClientID], as long
    as the counter does not pass 255. *)
Lemma server_run_ids evs srv :
  uint8_to_Z (nextClientID srv) + Z.of_nat (accepts evs) ≤ 256 →
  uint8_to_Z <$> (clientID <$> (server_run evs srv).2)
  = seqZ (uint8_to_Z (nextClientID srv)) (Z.of_nat (accepts evs)).
Proof.
  revert srv. induction evs as [|[s|id] evs IH]; intros srv Hle; [done| |].
  - rewrite server_run_cons. cbn [accepts server_step] in *.
    unfold accept_step.
    destruct (decide (s ≠ INVALID_SOCKET)) as [Hs|Hs]; cbn [fst snd option_list].
    + set (srv1 := mkServer _ _ _).
      pose proof (uint8_to_Z_range (nextClientID srv)) as Hr.
      assert (Hnext : uint8_to_Z (nextClientID srv1)
                      = (uint8_to_Z (nextClientID srv) + 1) mod 256)
        by apply uint8_succ_to_Z.
      rewrite seqZ_cons by lia. cbn [option_list option_rect app].
      rewrite !fmap_cons. cbn [clientID]. f_equal.
      destruct (accepts evs) as [|n] eqn:En.
      * specialize (IH srv1). rewrite IH; [done|].
        pose proof (uint8_to_Z_range (nextClientID srv1)). lia.
      * specialize (IH srv1).
        rewrite Z.mod_small in Hnext by lia.
        rewrite IH by lia. f_equal; lia.
    + by apply IH.
  - rewrite server_run_cons. cbn [accepts server_step fst snd option_list app] in *.
    by apply (IH (remove_client id srv)).
Qed.

(** Whoever is registered after a run was registered before or was created
    by it; without departures the registry only grows, in order. *)
Lemma server_run_clients evs srv :
  (∀ ch, ch ∈ clients (server_run evs srv).1 →
         ch ∈ clients srv ∨ ch ∈ (server_run evs srv).2)
  ∧ (forallb (negb ∘ is_departure) evs = true →
     clients (server_run evs srv).1 = clients srv ++ (server_run evs srv).2).
Proof.
  revert srv. induction evs as [|[s|id] evs IH]; intros srv.
  - split; [by left|]. intros _. simpl. by rewrite app_nil_r.
  - rewrite server_run_cons. cbn [server_step]. unfold accept_step.
    destruct (decide (s ≠ INVALID_SOCKET)) as [Hs|Hs]; cbn [fst snd option_list].
    + set (ch0 := mkHandler s (nextClientID srv)).
      set (srv1 := mkServer _ _ _).
      destruct (IH srv1) as [IH1 IH2]. split.
      * intros ch [Hin|Hin]%IH1; [|right; by constructor].
        apply elem_of_app in Hin as [Hin|Hin%list_elem_of_singleton];
          [by left|right; subst; by constructor].
      * intros Hno. rewrite IH2 by done. simpl. by rewrite <- app_assoc.
    + apply IH.
  - rewrite server_run_cons. cbn [server_step fst snd option_list app].
    destruct (IH (remove_client id srv)) as [IH1 _]. split; [|done].
    intros ch [Hin|Hin]%IH1; [left|by right].
    by apply list_elem_of_filter in Hin as [_ ?].
Qed.

(** The first 255 ids of a fresh server. *)
Lemma fresh_server_ids evs :
  (accepts evs ≤ 255)%nat →
  uint8_to_Z <$> (clientID <$> (server_run evs Server_init).2)
    = seqZ 1 (Z.of_nat (accepts evs))
  ∧ (∀ ch, ch ∈ clients (server_run evs Server_init).1 →
           ch ∈ (server_run evs Server_init).2).
Proof.
  intros Hle. split.
  - apply (server_run_ids evs Server_init).
    change (uint8_to_Z (nextClientID Server_init)) with 1. lia.
  - destruct (server_run_clients evs Server_init) as [Hsub _].
    intros ch [Hin|Hin]%Hsub; [|done]. by apply elem_of_nil in Hin.
Qed.


(** C9.  Among the first 255 connections accepted by a fresh server, with
    handlers leaving at any point in between, the k-th accepted connection
    gets id k: the ids are 1, 2, ..., N in acceptance order, hence
    pairwise distinct and strictly increasing, and no id is handed out
    twice even after its holder has left.  Without departures the registry
    holds exactly the handlers created, in acceptance order.  Nothing but
    the width of the counter guards the id space: accepting at 255 moves
    the counter to 0. *)
Theorem ids_sequential (evs : list server_event) :
  (accepts evs ≤ 255)%nat →
  let srv := (server_run evs Server_init).1 in
  let created := (server_run evs Server_init).2 in
  uint8_to_Z <$> (clientID <$> created) = seqZ 1 (Z.of_nat (accepts evs))
  ∧ NoDup (clientID <$> created)
  ∧ (∀ (i j : nat) hi hj, created !! i = Some hi → created !! j = Some hj →
       (i < j)%nat → uint8_to_Z (clientID hi) < uint8_to_Z (clientID hj))
  ∧ (∀ ch, ch ∈ clients srv → ch ∈ created)
  ∧ (forallb (negb ∘ is_departure) evs = true → clients srv = created)
  ∧ (∀ s, s ≠ INVALID_SOCKET → nextClientID srv = Byte.xff →
       nextClientID (accept_step s srv).1 = Byte.x00).
Proof.
  intros Hle srv created. subst srv created.
  set (created := (server_run evs Server_init).2) in *.
  destruct (fresh_server_ids evs Hle) as [Hids Hsub]. fold created in Hids, Hsub.
  destruct (server_run_clients evs Server_init) as [_ Hgrow].
  split_and!; [done| | |done| |].
  - apply (NoDup_fmap_1 uint8_to_Z). rewrite Hids. apply NoDup_seqZ.
  - intros i j hi hj Hi Hj Hlt.
    assert (Hat : ∀ (n : nat) h, created !! n = Some h →
                    uint8_to_Z (clientID h) = 1 + Z.of_nat n).
    { intros n h Hn.
      assert (seqZ 1 (Z.of_nat (accepts evs)) !! n
              = Some (uint8_to_Z (clientID h))) as Hs.
      { rewrite <- Hids, !list_lookup_fmap, Hn. done. }
      by apply lookup_seqZ in Hs as [-> _]. }
    rewrite (Hat i hi), (Hat j hj) by done. lia.
  - intros Hno. by rewrite Hgrow.
  - intros s Hs Hff. unfold accept_step. rewrite decide_True by done.
    cbn [fst nextClientID]. by rewrite Hff.
Qed.

Lemma ids_sequential_witness :
  let evs := [Accepted 10; Accepted 11; Left Byte.x01; Accepted 12] in
  (accepts evs ≤ 255)%nat
  ∧ uint8_to_Z <$> (clientID <$> (server_run evs Server_init).2) = [1; 2; 3]
  ∧ NoDup (clientID <$> (server_run evs Server_init).2).
Proof.
  intros evs.
  assert (Hle : (accepts evs ≤ 255)%nat) by (vm_compute; lia).
  destruct (ids_sequential evs Hle) as (Hids & Hnd & _).
  split; [exact Hle|]. split; [exact Hids|exact Hnd].
Defined.

(** C10.  After fewer than 256 accepts no registered handler has id 0, so a
    broadcast with the default [excludeID] of 0 reaches every registered
    handler: its trace is the delivery to each of them, in registry
    order. *)
Theorem sentinel_excludes_nobody (evs : list server_event) (msg : BaseMessage) :
  (accepts evs ≤ 255)%nat →
  let srv := (server_run evs Server_init).1 in
  (∀ ch, ch ∈ clients srv → clientID ch ≠ Byte.x00)
  ∧ broadcastMessage_default msg (clients srv) = clients srv ≫= deliver msg.
Proof.
  intros Hle srv. subst srv.
  destruct (fresh_server_ids evs Hle) as (Hids & Hsub).
  assert (Hnz : ∀ ch, ch ∈ clients (server_run evs Server_init).1 →
                     clientID ch ≠ Byte.x00).
  { intros ch Hin%Hsub E.
    assert (uint8_to_Z (clientID ch) ∈ seqZ 1 (Z.of_nat (accepts evs))) as Hs.
    { rewrite <- Hids. by do 2 apply list_elem_of_fmap_2. }
    apply elem_of_seqZ in Hs. rewrite E in Hs.
    change (uint8_to_Z Byte.x00) with 0 in Hs. lia. }
  split; [done|].
  unfold broadcastMessage_default. rewrite broadcastMessage_bind.
  by rewrite filter_all.
Qed.

Lemma sentinel_excludes_nobody_witness :
  let evs := [Accepted 10; Accepted 11; Left Byte.x01; Accepted 12] in
  let msg := Event (mkEvent Byte.x00 [Byte.x07]) in
  (accepts evs ≤ 255)%nat
  ∧ broadcastMessage_default msg (clients (server_run evs Server_init).1)
    = deliver msg (mkHandler 11 Byte.x02) ++ deliver msg (mkHandler 12 Byte.x03).
Proof.
  intros evs msg.
  assert (Hle : (accepts evs ≤ 255)%nat) by (vm_compute; lia).
  destruct (sentinel_excludes_nobody evs msg Hle) as [_ Hall].
  split; [exact Hle|]. rewrite Hall. reflexivity.
Defined.

(** ** Connection handler *)

Lemma read_block_sender_blind k s1 s2 rest :
  read_block (k :: s1 :: rest) 2 = read_block (k :: s2 :: rest) 2.
Proof. by rewrite !read_block_header. Qed.

Lemma set_senderID_make_message k s1 s2 data id :
  set_senderID (make_message k s1 data) id
  = set_senderID (make_message k s2 data) id.
Proof. unfold make_message. by destruct (uint8_to_Z k) as [|[?|[?|?|]|]|?]. Qed.

Lemma relay_sender_blind id clients k s1 s2 rest :
  relay id clients (k :: s1 :: rest) = relay id clients (k :: s2 :: rest).
Proof.
  unfold relay. rewrite !deserializeMessage_unfold.
  destruct (kind_known k); [|done].
  rewrite (read_block_sender_blind k s1 s2).
  destruct (read_block _ 2) as [data|]; [|done]. simpl.
  by rewrite (set_senderID_make_message k s1 s2).
Qed.

Lemma encode_sender msg : encode msg !! 1%nat = Some (senderID msg).
Proof. by rewrite encode_eq. Qed.

(** C2.  When a frame read by the handler of connection [id] decodes to
    [msg], what is broadcast is [msg] with [senderID] set to [id] (kind and
    payload untouched), excluding [id]; the frames sent carry [id] at
    offset 1; and replacing the sender byte of the inbound frame by any
    other value leaves the calls made by the handler unchanged. *)
Theorem sender_id_integrity (id : uint8) (clients : list ClientHandler)
    (buffer : list uint8) (msg : BaseMessage) :
  deserializeMessage buffer = Some msg →
  relay id clients buffer = broadcastMessage (set_senderID msg id) id clients
  ∧ senderID (set_senderID msg id) = id
  ∧ messageType (set_senderID msg id) = messageType msg
  ∧ payload (set_senderID msg id) = payload msg
  ∧ encode (set_senderID msg id) !! 1%nat = Some id
  ∧ (∀ declared : uint8,
       relay id clients (<[1%nat := declared]> buffer) = relay id clients buffer).
Proof.
  intros Hdec. split_and!.
  - unfold relay. by rewrite Hdec.
  - by destruct msg.
  - by destruct msg.
  - by destruct msg.
  - rewrite encode_sender. by destruct msg.
  - intros declared.
    apply deserializeMessage_Some in Hdec as (k & s & rest & -> & _).
    apply relay_sender_blind.
Qed.

Lemma sender_id_integrity_witness :
  let clients := [mkHandler 10 Byte.x01; mkHandler 11 Byte.x02] in
  let buffer := [Byte.x00; Byte.x63; Byte.x00; Byte.x00; Byte.x00; Byte.x01;
                 Byte.x41] in
  deserializeMessage buffer = Some (Text (mkText Byte.x63 [Byte.x41]))
  ∧ relay Byte.x01 clients buffer
    = deliver (Text (mkText Byte.x01 [Byte.x41])) (mkHandler 11 Byte.x02)
  ∧ relay Byte.x01 clients (<[1%nat := Byte.xff]> buffer)
    = relay Byte.x01 clients buffer.
Proof.
  intros clients buffer.
  assert (Hdec : deserializeMessage buffer
                 = Some (Text (mkText Byte.x63 [Byte.x41]))) by reflexivity.
  destruct (sender_id_integrity Byte.x01 clients buffer _ Hdec)
    as (Hrelay & _ & _ & _ & _ & Hblind).
  split; [exact Hdec|]. split; [rewrite Hrelay; reflexivity|apply Hblind].
Defined.

(** *** Framing *)

Lemma htonl_size x : size (htonl x) = 4.
Proof. done. Qed.

Lemma store_whole {A} (x : A) (data : list A) :
  store (replicate (length data) x) 0 data = data.
Proof.
  unfold store. change (Z.to_nat 0) with 0%nat. cbn [take app plus].
  rewrite drop_ge by (by rewrite length_replicate).
  apply app_nil_r.
Qed.

(** A frame that arrives as one segment for the length field and one for
    the body is read whole. *)
Lemma read_frame_whole fuel buffer rest :
  0 < size buffer < 2 ^ 32 →
  read_frame (S (S fuel)) (Data (htonl (size buffer)) :: Data buffer :: rest)
  = Frame buffer rest.
Proof.
  intros Hsz.
  destruct (ntohl_htonl (size buffer)) as (b0 & b1 & b2 & b3 & Eh & En); [lia|].
  unfold read_frame. cbn [recv]. rewrite htonl_size, Eh.
  change (4 <=? 4) with true. cbv beta iota zeta.
  change (4 <=? 0) with false. cbv beta iota zeta.
  rewrite En. cbn [recv_loop recv].
  destruct (Z.ltb_spec 0 (size buffer)); [|lia].
  rewrite Z.sub_0_r, Z.leb_refl.
  destruct (Z.leb_spec (size buffer) 0); [lia|].
  rewrite Z.add_0_l, Z.ltb_irrefl.
  destruct (Z.leb_spec (size buffer) 0); [lia|].
  unfold size. by rewrite Nat2Z.id, store_whole.
Qed.

(** A frame announced with length zero has no body to wait for. *)
Lemma read_frame_empty fuel rest :
  read_frame (S fuel) (Data (htonl 0) :: rest) = Frame [] rest.
Proof. done. Qed.

(** A turn whose first [recv] returns 0 or less leaves the loop. *)
Lemma read_frame_length_failed fuel input :
  (recv 4 input).1.1 ≤ 0 → ∃ input', read_frame fuel input = ReadFailed input'.
Proof.
  unfold read_frame. destruct (recv 4 input) as [[n data] input']. simpl.
  intros Hn. exists input'. by destruct (Z.leb_spec n 0); [|lia].
Qed.

(** *** Fuel *)

Lemma recv_weight len input :
  0 < len →
  (weight (recv len input).2 ≤ weight input)%nat
  ∧ (0 < (recv len input).1.1 → (weight (recv len input).2 < weight input)%nat).
Proof.
  intros Hlen. destruct input as [|[seg| |] input]; cbn [recv weight fst snd].
  - split; [done|lia].
  - destruct (Z.leb_spec (size seg) len); cbn [fst snd weight].
    + unfold size. split; lia.
    + rewrite length_drop. unfold size in *. split; lia.
  - split; lia.
  - unfold SOCKET_ERROR. split; lia.
Qed.

Lemma recv_loop_fuel fuel msgSize totalReceived bytesReceived buffer input :
  (weight input < fuel)%nat →
  ∃ r buffer' input',
    recv_loop fuel msgSize totalReceived bytesReceived buffer input
      = Some (r, buffer', input')
    ∧ (weight input' ≤ weight input)%nat.
Proof.
  revert totalReceived bytesReceived buffer input.
  induction fuel as [|fuel IH]; intros totalReceived bytesReceived buffer input
    Hfuel; [lia|].
  cbn [recv_loop].
  destruct (Z.ltb_spec totalReceived msgSize) as [Hlt|_]; [|by eexists _, _, _].
  destruct (recv_weight (msgSize - totalReceived) input) as [Hle Hdec]; [lia|].
  destruct (recv (msgSize - totalReceived) input) as [[n data] input1].
  cbn [fst snd] in Hle, Hdec.
  destruct (Z.leb_spec n 0) as [_|Hpos]; [by eexists _, _, _|].
  specialize (Hdec Hpos).
  destruct (IH (totalReceived + n) n (store buffer totalReceived data) input1)
    as (r & buffer' & input' & -> & Hw); [lia|].
  eexists _, _, _. split; [done|lia].
Qed.

Lemma read_frame_fuel fuel input :
  (weight input < fuel)%nat →
  read_frame fuel input ≠ NoFuel
  ∧ ∀ buffer input', read_frame fuel input = Frame buffer input' →
      (weight input' < weight input)%nat.
Proof.
  intros Hfuel. unfold read_frame.
  destruct (recv_weight 4 input) as [Hle Hdec]; [lia|].
  destruct (recv 4 input) as [[n data] input1]. cbn [fst snd] in Hle, Hdec.
  destruct (Z.leb_spec n 0) as [_|Hpos]; [done|].
  specialize (Hdec Hpos).
  destruct data as [|b0 [|b1 [|b2 [|b3 [|]]]]]; try done.
  destruct (recv_loop_fuel fuel (ntohl b0 b1 b2 b3) 0 n
              (replicate (Z.to_nat (ntohl b0 b1 b2 b3)) Byte.x00) input1)
    as (r & buffer' & input' & -> & Hw); [lia|].
  destruct (Z.leb_spec r 0); [done|].
  split; [done|]. intros ? ? [= <- <-]. lia.
Qed.

Lemma handleClient_loop_unfold fuel srv id input :
  handleClient_loop (S fuel) srv id input =
  if isRunning srv then
    match read_frame (S fuel) input with
    | ReadFailed _ => ([], Broken)
    | ShortLength => ([], Indeterminate)
    | NoFuel => ([], OutOfFuel)
    | Frame buffer input =>
        let r := handleClient_loop fuel srv id input in
        (relay id (clients srv) buffer ++ r.1, r.2)
    end
  else ([], Stopped).
Proof.
  cbn [handleClient_loop]. destruct (isRunning srv); [|done].
  destruct (read_frame (S fuel) input) as [buffer input'| | |]; try done.
  by destruct (handleClient_loop fuel srv id input').
Qed.

(** With more fuel than the weight of the input the loop ends for a reason
    of its own. *)
Lemma handleClient_loop_fuel fuel srv id input :
  (weight input < fuel)%nat →
  (handleClient_loop fuel srv id input).2 ≠ OutOfFuel.
Proof.
  revert input. induction fuel as [|fuel IH]; intros input Hfuel; [lia|].
  rewrite handleClient_loop_unfold.
  destruct (isRunning srv); [|done].
  destruct (read_frame_fuel (S fuel) input Hfuel) as [Hno Hdec].
  destruct (read_frame (S fuel) input) as [buffer input'| | |]; try done.
  cbn [snd]. apply IH. specialize (Hdec _ _ eq_refl). lia.
Qed.

(** C7, as the code has it.  When a frame that was read whole fails to
    decode, the handler sends nothing for it and goes on to read the next
    frame from the same connection; the loop is left when a [recv] of the
    length field or of the body returns 0 or less. *)
Theorem decode_failure_keeps_reading (fuel : nat) (srv : Server) (id : uint8)
    (buffer : list uint8) (rest : list arrival) :
  isRunning srv = true →
  0 < size buffer < 2 ^ 32 →
  deserializeMessage buffer = None →
  handleClient_loop (S (S fuel)) srv id
      (Data (htonl (size buffer)) :: Data buffer :: rest)
    = handleClient_loop (S fuel) srv id rest
  ∧ (∀ input, (recv 4 input).1.1 ≤ 0 →
       handleClient_loop (S fuel) srv id input = ([], Broken))
  ∧ (∀ input input', read_frame (S fuel) input = ReadFailed input' →
       handleClient_loop (S fuel) srv id input = ([], Broken)).
Proof.
  intros Hrun Hsz Hdec. split_and!.
  - rewrite handleClient_loop_unfold, Hrun, read_frame_whole by done.
    unfold relay. rewrite Hdec. cbn [app].
    by destruct (handleClient_loop (S fuel) srv id rest).
  - intros input Hrecv. rewrite handleClient_loop_unfold, Hrun.
    by destruct (read_frame_length_failed (S fuel) input Hrecv) as [input' ->].
  - intros input input' Hread.
    by rewrite handleClient_loop_unfold, Hrun, Hread.
Qed.

Lemma decode_failure_keeps_reading_witness :
  let srv := mkServer [mkHandler 10 Byte.x01; mkHandler 11 Byte.x02]
               Byte.x03 true in
  let good := encode (Text (mkText Byte.x00 [Byte.x68; Byte.x69])) in
  let rest := [Data (htonl (size good)); Data good; Shutdown] in
  deserializeMessage [Byte.x09] = None
  ∧ handleClient_loop 5 srv Byte.x01
      (Data (htonl (size [Byte.x09])) :: Data [Byte.x09] :: rest)
    = handleClient_loop 4 srv Byte.x01 rest
  ∧ handleClient_loop 4 srv Byte.x01 [Data (htonl 9); Data [Byte.x00]; Failure]
    = ([], Broken).
Proof.
  intros srv good rest.
  assert (Hdec : deserializeMessage [Byte.x09] = None) by reflexivity.
  assert (Hsz : 0 < size [Byte.x09] < 2 ^ 32) by (vm_compute; split; reflexivity).
  destruct (decode_failure_keeps_reading 3 srv Byte.x01 [Byte.x09] rest
              eq_refl Hsz Hdec) as (Hnext & _ & Hfail).
  split; [exact Hdec|]. split; [exact Hnext|].
  apply (Hfail _ []). reflexivity.
Defined.

(** C7, as stated, fails: the handler of connection 1 reads a one-byte
    frame that does not decode, stays in its loop, and relays the frame
    that follows to connection 2. *)
Lemma decode_failure_terminates_counterexample :
  let srv := mkServer [mkHandler 10 Byte.x01; mkHandler 11 Byte.x02]
               Byte.x03 true in
  let good := encode (Text (mkText Byte.x00 [Byte.x68; Byte.x69])) in
  let input := [Data (htonl 1); Data [Byte.x09];
                Data (htonl (size good)); Data good; Shutdown] in
  read_frame 5 input
    = Frame [Byte.x09] [Data (htonl (size good)); Data good; Shutdown]
  ∧ deserializeMessage [Byte.x09] = None
  ∧ handleClient_loop 5 srv Byte.x01 input
    = (deliver (Text (mkText Byte.x01 [Byte.x68; Byte.x69]))
         (mkHandler 11 Byte.x02), Broken)
  ∧ handleClient_loop 5 srv Byte.x01 input ≠ ([], Broken).
Proof. by vm_compute. Qed.

(** ** Client mailbox *)

Lemma elem_of_all_uint8 (b : uint8) : b ∈ all_uint8.
Proof.
  rewrite <- (uint8_of_to b). unfold all_uint8.
  apply list_elem_of_fmap_2, elem_of_seqZ.
  pose proof (uint8_to_Z_range b). lia.
Qed.

Lemma all_uint8_ascending : uint8_to_Z <$> all_uint8 = seqZ 0 256.
Proof. by vm_compute. Qed.

Lemma all_uint8_sorted : StronglySorted uint8_lt all_uint8.
Proof. decide_by_compute. Qed.

Lemma NoDup_all_uint8 : NoDup all_uint8.
Proof.
  apply (NoDup_fmap_1 uint8_to_Z). rewrite all_uint8_ascending.
  apply NoDup_seqZ.
Qed.

Lemma StronglySorted_filter {A} (R : relation A) (P : A → Prop)
    `{!∀ x, Decision (P x)} (l : list A) :
  StronglySorted R l → StronglySorted R (filter P l).
Proof.
  induction 1 as [|x l Hl IH Hx]; [constructor|].
  rewrite filter_cons. destruct (decide (P x)); [|done].
  constructor; [done|].
  apply Forall_forall. intros y [_ Hy]%list_elem_of_filter.
  by eapply Forall_forall in Hx.
Qed.

Section MapEntries.
Context {V : Type} (m : gmap uint8 V).

Lemma map_entries_keys :
  (map_entries m).*1 = filter (λ k, is_Some (m !! k)) all_uint8.
Proof.
  unfold map_entries. induction all_uint8 as [|k keys IH]; [done|].
  rewrite filter_cons. cbn [omap list_omap].
  destruct (decide (is_Some (m !! k))) as [[v Hv]|Hn].
  - rewrite Hv. simpl. by rewrite <- IH.
  - apply eq_None_not_Some in Hn. rewrite Hn. apply IH.
Qed.

Lemma elem_of_map_entries k v : (k, v) ∈ map_entries m ↔ m !! k = Some v.
Proof.
  unfold map_entries. rewrite list_elem_of_omap. split.
  - intros (k' & _ & Hk'). by destruct (m !! k') eqn:E; simplify_eq/=.
  - intros Hk. exists k. split; [apply elem_of_all_uint8|]. by rewrite Hk.
Qed.

Lemma map_entries_sorted : StronglySorted uint8_lt (map_entries m).*1.
Proof.
  rewrite map_entries_keys.
  apply StronglySorted_filter, all_uint8_sorted.
Qed.

Lemma map_entries_for_key (k : uint8) :
  filter (λ e, e.1 = k) (map_entries m)
  = match m !! k with Some v => [(k, v)] | None => [] end.
Proof.
  unfold map_entries.
  pose proof (elem_of_all_uint8 k) as Hin. pose proof NoDup_all_uint8 as Hnd.
  assert (Hout : ∀ keys, k ∉ keys →
    filter (λ e : uint8 * V, e.1 = k)
      (omap (λ k', (λ v, (k', v)) <$> m !! k') keys) = []).
  { induction keys as [|k' keys IH]; [done|].
    intros [Hne Hnot]%not_elem_of_cons. cbn [omap list_omap].
    destruct (m !! k') as [v|]; simpl; [|by apply IH].
    rewrite filter_cons_False by (simpl; congruence). by apply IH. }
  induction all_uint8 as [|k' keys IH]; [by apply elem_of_nil in Hin|].
  apply NoDup_cons in Hnd as [Hfresh Hnd]. cbn [omap list_omap].
  destruct (decide (k' = k)) as [->|Hne].
  - destruct (m !! k) as [v|]; simpl; [|by apply Hout].
    rewrite filter_cons_True by done. by rewrite Hout.
  - apply elem_of_cons in Hin as [?|Hin]; [congruence|].
    destruct (m !! k') as [v|]; simpl; [|by apply IH].
    rewrite filter_cons_False by (simpl; congruence). by apply IH.
Qed.
End MapEntries.

Lemma text_loop_spec v : text_loop v = ([], displayTextMessage <$> v).
Proof. induction v as [|tm v IH]; [done|]. simpl. by rewrite IH. Qed.

Lemma event_loop_spec v : event_loop v = ([], processEventMessage <$> v).
Proof. induction v as [|em v IH]; [done|]. simpl. by rewrite IH. Qed.

Lemma omap_lookup_delete (k : uint8) (keys : list uint8)
    (m : gmap uint8 SnapshotMessage) :
  k ∉ keys → omap (λ k', delete k m !! k') keys = omap (λ k', m !! k') keys.
Proof.
  induction keys as [|k' keys IH]; [done|].
  intros [Hne Hnot]%not_elem_of_cons. cbn [omap list_omap].
  rewrite lookup_delete_ne by done. by rewrite IH.
Qed.

(** The third loop handles the entries under [keys] in the order of [keys]
    and leaves exactly the entries under other keys. *)
Lemma snapshot_loop_spec (keys : list uint8) (m : gmap uint8 SnapshotMessage) :
  NoDup keys →
  (snapshot_loop keys m).2 = processSnapshotMessage <$> omap (λ k, m !! k) keys
  ∧ ∀ j, (snapshot_loop keys m).1 !! j
         = if decide (j ∈ keys) then None else m !! j.
Proof.
  revert m. induction keys as [|k keys IH]; intros m Hnd.
  { split; [done|]. intros j. rewrite decide_False; [done|apply not_elem_of_nil]. }
  apply NoDup_cons in Hnd as [Hfresh Hnd]. cbn [snapshot_loop omap list_omap].
  destruct (m !! k) as [sm|] eqn:E.
  - destruct (IH (delete k m) Hnd) as [IHtr IHm].
    destruct (snapshot_loop keys (delete k m)) as [m' tr].
    cbn [fst snd] in *.
    split; [by rewrite IHtr, omap_lookup_delete|].
    intros j. rewrite IHm.
    destruct (decide (j = k)) as [->|Hne].
    + rewrite decide_False by done. rewrite decide_True by constructor.
      apply lookup_delete_eq.
    + rewrite lookup_delete_ne by done.
      destruct (decide (j ∈ keys)).
      * rewrite decide_True; [done|by constructor].
      * rewrite decide_False; [done|]. by intros [?|?]%elem_of_cons.
  - destruct (IH m Hnd) as [IHtr IHm]. split; [done|].
    intros j. rewrite IHm.
    destruct (decide (j = k)) as [->|Hne].
    + rewrite decide_False by done. rewrite decide_True by constructor. done.
    + destruct (decide (j ∈ keys)).
      * rewrite decide_True; [done|by constructor].
      * rewrite decide_False; [done|]. by intros [?|?]%elem_of_cons.
Qed.

Lemma map_entries_values (m : gmap uint8 SnapshotMessage) :
  (map_entries m).*2 = omap (λ k, m !! k) all_uint8.
Proof.
  unfold map_entries. induction all_uint8 as [|k keys IH]; [done|].
  cbn [omap list_omap]. destruct (m !! k); simpl; [f_equal|]; apply IH.
Qed.

(** What one turn of the dispatcher does. *)
Lemma processMessages_turn_spec c :
  processMessages_turn c =
  (Client_empty,
   [lock] ++ (displayTextMessage <$> textMessages c)
     ++ (processEventMessage <$> eventMessages c)
     ++ (processSnapshotMessage <$> (map_entries (snapshotMessages c)).*2)
     ++ [unlock]).
Proof.
  unfold processMessages_turn.
  rewrite text_loop_spec, event_loop_spec.
  destruct (snapshot_loop_spec all_uint8 (snapshotMessages c) NoDup_all_uint8)
    as [Htr Hm].
  destruct (snapshot_loop all_uint8 (snapshotMessages c)) as [m' tr].
  cbn [fst snd] in Htr, Hm. rewrite Htr, map_entries_values.
  assert (m' = ∅) as ->; [|reflexivity].
  apply map_eq. intros j. rewrite Hm, lookup_empty.
  apply decide_True, elem_of_all_uint8.
Qed.

Lemma held_at_calls_app held tr1 tr2 :
  Forall (λ ev, is_handler_call ev = true) tr1 →
  held_at_calls held (tr1 ++ tr2)
  = replicate (length tr1) held ++ held_at_calls held tr2.
Proof.
  induction 1 as [|ev tr1 Hev _ IH]; [done|].
  destruct ev; try done; simpl; by rewrite IH.
Qed.

Lemma map_entries_empty {V} : map_entries (∅ : gmap uint8 V) = [].
Proof.
  destruct (map_entries (∅ : gmap uint8 V)) as [|[k v] l] eqn:E; [done|].
  assert ((k, v) ∈ map_entries (∅ : gmap uint8 V)) as Hin
    by (rewrite E; constructor).
  apply elem_of_map_entries in Hin. by rewrite lookup_empty in Hin.
Qed.

(** C8, as the code has it.  One turn of the dispatcher takes the mutex,
    handles every text message in queue order, then every event message in
    queue order, then every snapshot entry by ascending sender key, erasing
    each entry as it is handled, and releases the mutex last: every handler
    runs while the mutex is held.  The turn leaves the three containers
    empty, so the next turn handles nothing. *)
Theorem drain_turn (c : Client) :
  let c' := (processMessages_turn c).1 in
  let tr := (processMessages_turn c).2 in
  c' = Client_empty
  ∧ tr = [lock] ++ (displayTextMessage <$> textMessages c)
           ++ (processEventMessage <$> eventMessages c)
           ++ (processSnapshotMessage <$> (map_entries (snapshotMessages c)).*2)
           ++ [unlock]
  ∧ handler_calls tr
    = (displayTextMessage <$> textMessages c)
        ++ (processEventMessage <$> eventMessages c)
        ++ (processSnapshotMessage <$> (map_entries (snapshotMessages c)).*2)
  ∧ (∀ k sm, (k, sm) ∈ map_entries (snapshotMessages c)
             ↔ snapshotMessages c !! k = Some sm)
  ∧ StronglySorted uint8_lt (map_entries (snapshotMessages c)).*1
  ∧ held_at_calls false tr = replicate (pending c) true
  ∧ (processMessages_turn c').2 = [lock; unlock].
Proof.
  intros c' tr. subst c' tr. rewrite !processMessages_turn_spec.
  cbn [fst snd].
  set (calls := (displayTextMessage <$> textMessages c)
        ++ (processEventMessage <$> eventMessages c)
        ++ (processSnapshotMessage <$> (map_entries (snapshotMessages c)).*2)).
  assert (Hcalls : Forall (λ ev, is_handler_call ev = true) calls).
  { unfold calls. rewrite !Forall_app, !Forall_fmap.
    split_and!; by apply Forall_true. }
  assert (Htr : [lock] ++ (displayTextMessage <$> textMessages c)
           ++ (processEventMessage <$> eventMessages c)
           ++ (processSnapshotMessage <$> (map_entries (snapshotMessages c)).*2)
           ++ [unlock] = lock :: calls ++ [unlock]).
  { unfold calls. by rewrite <- !app_assoc. }
  rewrite Htr. split_and!; try done.
  - unfold handler_calls. rewrite filter_cons_False by done.
    rewrite filter_app, (filter_all _ calls) by (apply Forall_forall, Hcalls).
    apply app_nil_r.
  - apply elem_of_map_entries.
  - apply map_entries_sorted.
  - cbn [held_at_calls]. rewrite held_at_calls_app by done.
    cbn [held_at_calls]. rewrite app_nil_r. f_equal.
    unfold calls, pending. rewrite !length_app, !length_fmap. lia.
Qed.

(** C8, as stated, fails on the release of the lock: with one text message
    waiting, the handler is called between [lock] and [unlock]. *)
Lemma handlers_after_unlock_counterexample :
  let c := mkClient [mkText Byte.x01 [Byte.x68]] [] ∅ in
  (processMessages_turn c).2
    = [lock; displayTextMessage (mkText Byte.x01 [Byte.x68]); unlock]
  ∧ held_at_calls false (processMessages_turn c).2 = [true]
  ∧ held_at_calls false (processMessages_turn c).2 ≠ [false].
Proof. by vm_compute. Qed.

(** *** Classification *)

(** The receive loop files a frame that decodes and passes over one that
    does not; in both cases it goes on reading. *)
Lemma receive_frame_spec buffer c :
  (receive_frame buffer c).1
  = match deserializeMessage buffer with
    | Some msg => sort_switch msg c
    | None => c
    end.
Proof. unfold receive_frame. by destruct (deserializeMessage buffer). Qed.

Lemma sort_all_snoc {A} (f : A → BaseMessage) (xs : list A) (x : A) c :
  sort_all (f <$> xs ++ [x]) c = sort_switch (f x) (sort_all (f <$> xs) c).
Proof. unfold sort_all. by rewrite fmap_app, foldl_app. Qed.

Lemma sort_all_snapshots (S : uint8) (sms : list SnapshotMessage) c :
  Forall (λ sm, sm_senderID sm = S) sms →
  textMessages (sort_all (Snapshot <$> sms) c) = textMessages c
  ∧ eventMessages (sort_all (Snapshot <$> sms) c) = eventMessages c
  ∧ ∀ k, k ≠ S →
      snapshotMessages (sort_all (Snapshot <$> sms) c) !! k
      = snapshotMessages c !! k.
Proof.
  induction sms as [|sm sms IH] using rev_ind; [done|].
  intros [Hall Hsm]%Forall_app.
  apply Forall_inv in Hsm. cbn beta in Hsm.
  destruct (IH Hall) as (IHt & IHe & IHs).
  rewrite sort_all_snoc. cbn [sort_switch
    textMessages eventMessages snapshotMessages].
  split_and!; [done|done|].
  intros k Hk. rewrite lookup_insert_ne by congruence. by apply IHs.
Qed.

Lemma sort_all_texts (tms : list TextMessage) c :
  sort_all (Text <$> tms) c
  = mkClient (textMessages c ++ tms) (eventMessages c) (snapshotMessages c).
Proof.
  induction tms as [|tm tms IH] using rev_ind.
  { destruct c. simpl. by rewrite app_nil_r. }
  rewrite sort_all_snoc, IH. simpl. by rewrite <- app_assoc.
Qed.

Lemma sort_all_events (ems : list EventMessage) c :
  sort_all (Event <$> ems) c
  = mkClient (textMessages c) (eventMessages c ++ ems) (snapshotMessages c).
Proof.
  induction ems as [|em ems IH] using rev_ind.
  { destruct c. simpl. by rewrite app_nil_r. }
  rewrite sort_all_snoc, IH. simpl. by rewrite <- app_assoc.
Qed.

(** C4.  After any non-empty run of Snapshot messages from sender [S] has
    been classified, whatever the mailbox held before, the snapshot map has
    exactly one entry under [S], namely the last message of the run; the
    entries of other senders and the two queues are as before.  A single
    Snapshot insertion replaces the entry of its sender.  Text and Event
    messages are appended to the back of their queues, in arrival order. *)
Theorem snapshot_last_write_wins (c : Client) (S : uint8)
    (sms : list SnapshotMessage) (sm_last : SnapshotMessage) :
  Forall (λ sm, sm_senderID sm = S) sms →
  last sms = Some sm_last →
  let c' := sort_all (Snapshot <$> sms) c in
  snapshotMessages c' !! S = Some sm_last
  ∧ filter (λ e, e.1 = S) (map_entries (snapshotMessages c')) = [(S, sm_last)]
  ∧ (∀ k, k ≠ S → snapshotMessages c' !! k = snapshotMessages c !! k)
  ∧ textMessages c' = textMessages c
  ∧ eventMessages c' = eventMessages c
  ∧ (∀ sm, snapshotMessages (sortMessageByType (Snapshot sm) c).1
             !! sm_senderID sm = Some sm)
  ∧ (∀ tms, sort_all (Text <$> tms) c
            = mkClient (textMessages c ++ tms) (eventMessages c)
                (snapshotMessages c))
  ∧ (∀ ems, sort_all (Event <$> ems) c
            = mkClient (textMessages c) (eventMessages c ++ ems)
                (snapshotMessages c)).
Proof.
  intros Hall [sms' ->]%last_Some c'.
  assert (Hlast : snapshotMessages c' !! S = Some sm_last).
  { unfold c'. rewrite sort_all_snoc.
    apply Forall_app in Hall as [_ Hsm]. apply Forall_inv in Hsm.
    cbn beta in Hsm. subst S. apply lookup_insert_eq. }
  destruct (sort_all_snapshots S _ c Hall) as (Ht & He & Hs).
  split_and!.
  - exact Hlast.
  - by rewrite map_entries_for_key, Hlast.
  - exact Hs.
  - exact Ht.
  - exact He.
  - intros sm. apply lookup_insert_eq.
  - intros tms. apply sort_all_texts.
  - intros ems. apply sort_all_events.
Qed.

Lemma snapshot_last_write_wins_witness :
  let c := mkClient [] [] {[ Byte.x05 := mkSnapshot Byte.x05 [Byte.x00] ]} in
  let sms := [mkSnapshot Byte.x05 [Byte.x01]; mkSnapshot Byte.x05 [Byte.x02]] in
  Forall (λ sm, sm_senderID sm = Byte.x05) sms
  ∧ last sms = Some (mkSnapshot Byte.x05 [Byte.x02])
  ∧ snapshotMessages (sort_all (Snapshot <$> sms) c) !! Byte.x05
    = Some (mkSnapshot Byte.x05 [Byte.x02])
  ∧ filter (λ e, e.1 = Byte.x05)
      (map_entries (snapshotMessages (sort_all (Snapshot <$> sms) c)))
    = [(Byte.x05, mkSnapshot Byte.x05 [Byte.x02])].
Proof.
  intros c sms.
  assert (Hall : Forall (λ sm, sm_senderID sm = Byte.x05) sms)
    by (repeat constructor).
  assert (Hlast : last sms = Some (mkSnapshot Byte.x05 [Byte.x02]))
    by reflexivity.
  destruct (snapshot_last_write_wins c Byte.x05 sms _ Hall Hlast)
    as (Hlook & Hone & _).
  split; [exact Hall|]. split; [exact Hlast|]. split; [exact Hlook|exact Hone].
Defined.

(** * Further properties *)

(** ** Wire codec *)

Lemma htonl_ntohl b0 b1 b2 b3 : htonl (ntohl b0 b1 b2 b3) = [b0; b1; b2; b3].
Proof.
  rewrite ntohl_value. unfold htonl.
  pose proof (uint8_to_Z_range b0). pose proof (uint8_to_Z_range b1).
  pose proof (uint8_to_Z_range b2). pose proof (uint8_to_Z_range b3).
  set (v := _ + _ + _ + _).
  rewrite !Z.shiftr_div_pow2 by lia.
  assert (v / 2 ^ 24 = uint8_to_Z b0) as ->.
  { symmetry. apply (Z.div_unique _ _ _
      (uint8_to_Z b1 * 2 ^ 16 + uint8_to_Z b2 * 2 ^ 8 + uint8_to_Z b3));
      unfold v; lia. }
  assert (v / 2 ^ 16 = uint8_to_Z b0 * 256 + uint8_to_Z b1) as ->.
  { symmetry. apply (Z.div_unique _ _ _ (uint8_to_Z b2 * 2 ^ 8 + uint8_to_Z b3));
      unfold v; lia. }
  assert (v / 2 ^ 8
          = uint8_to_Z b0 * 65536 + uint8_to_Z b1 * 256 + uint8_to_Z b2) as ->.
  { symmetry. apply (Z.div_unique _ _ _ (uint8_to_Z b3)); unfold v; lia. }
  assert (Hlow : ∀ hi b, uint8_of_Z (hi * 256 + uint8_to_Z b) = b).
  { intros hi b. apply uint8_to_Z_inj. rewrite uint8_to_of.
    pose proof (uint8_to_Z_range b).
    rewrite Z.add_comm, Z.mod_add by lia. by apply Z.mod_small. }
  f_equal; [apply uint8_of_to|]. f_equal; [apply Hlow|].
  f_equal.
  { replace (uint8_to_Z b0 * 65536 + uint8_to_Z b1 * 256 + uint8_to_Z b2)
      with ((uint8_to_Z b0 * 256 + uint8_to_Z b1) * 256 + uint8_to_Z b2) by lia.
    apply Hlow. }
  f_equal. unfold v.
  replace (uint8_to_Z b0 * 2 ^ 24 + uint8_to_Z b1 * 2 ^ 16
           + uint8_to_Z b2 * 2 ^ 8 + uint8_to_Z b3)
    with ((uint8_to_Z b0 * 65536 + uint8_to_Z b1 * 256 + uint8_to_Z b2) * 256
          + uint8_to_Z b3) by lia.
  apply Hlow.
Qed.

Lemma make_message_fields k sender data :
  kind_known k = true →
  messageType (make_message k sender data) = k
  ∧ senderID (make_message k sender data) = sender
  ∧ payload (make_message k sender data) = data.
Proof.
  intros Hk. unfold make_message.
  destruct (kind_cases k) as [[E ->]|[[E ->]|[[E ->]|[E E']]]];
    [done|done|done|congruence].
Qed.

Lemma declared_length_encode msg :
  declared_length (encode msg) = uint32_of_Z (size (payload msg)).
Proof.
  rewrite encode_eq.
  destruct (ntohl_htonl _ (uint32_of_Z_range (size (payload msg))))
    as (b0 & b1 & b2 & b3 & E & Hlen).
  by rewrite E.
Qed.

(** Every encoded message decodes, whatever its size: the kind and the
    sender come back, and so does the payload up to the length the 32-bit
    field can announce. *)
Theorem encode_always_decodes (msg : BaseMessage) :
  ∃ msg', deserializeMessage (encode msg) = Some msg'
    ∧ messageType msg' = messageType msg
    ∧ senderID msg' = senderID msg
    ∧ payload msg'
      = take (Z.to_nat (size (payload msg) mod 2 ^ 32)) (payload msg).
Proof.
  eexists. split; [apply decode_encode_general|].
  destruct (make_message_fields (messageType msg) (senderID msg)
              (take (Z.to_nat (uint32_of_Z (size (payload msg)))) (payload msg))
              (kind_known_messageType msg)) as (Hk & Hs & Hp).
  by rewrite Hk, Hs, Hp.
Qed.

(** The layout of an encoded message: kind at offset 0, sender at offset 1,
    the payload size modulo [2^32] big-endian at offset 2, the payload from
    offset 6 to the end. *)
Theorem encode_layout (msg : BaseMessage) :
  size (encode msg) = 6 + size (payload msg)
  ∧ encode msg !! 0%nat = Some (messageType msg)
  ∧ encode msg !! 1%nat = Some (senderID msg)
  ∧ take 4 (drop 2 (encode msg)) = htonl (size (payload msg) mod 2 ^ 32)
  ∧ declared_length (encode msg) = size (payload msg) mod 2 ^ 32
  ∧ drop 6 (encode msg) = payload msg.
Proof.
  split_and!.
  - rewrite encode_eq. unfold size, htonl. simpl length. lia.
  - by rewrite encode_eq.
  - by rewrite encode_eq.
  - by rewrite encode_eq.
  - apply declared_length_encode.
  - by rewrite encode_eq.
Qed.

(** Two messages with the same encoding are the same message. *)
Theorem encode_injective (msg1 msg2 : BaseMessage) :
  encode msg1 = encode msg2 → msg1 = msg2.
Proof.
  intros E.
  assert (Hk : messageType msg1 = messageType msg2).
  { apply (f_equal (λ b, b !! 0%nat)) in E. rewrite !encode_eq in E.
    by injection E. }
  assert (Hs : senderID msg1 = senderID msg2).
  { apply (f_equal (λ b, b !! 1%nat)) in E. rewrite !encode_eq in E.
    by injection E. }
  assert (Hp : payload msg1 = payload msg2).
  { apply (f_equal (drop 6)) in E. by rewrite !encode_eq in E. }
  rewrite <- (make_message_eq msg1), <- (make_message_eq msg2).
  by rewrite Hk, Hs, Hp.
Qed.

Lemma encode_injective_witness :
  let msg := Event (mkEvent Byte.x04 [Byte.x01]) in
  encode msg = [Byte.x01; Byte.x04; Byte.x00; Byte.x00; Byte.x00; Byte.x01;
                Byte.x01]
  ∧ msg = Event (mkEvent Byte.x04 [Byte.x01]).
Proof.
  intros msg.
  assert (E : encode msg = encode (Event (mkEvent Byte.x04 [Byte.x01])))
    by reflexivity.
  split; [reflexivity|exact (encode_injective _ _ E)].
Defined.

(** The encoding of the message a buffer decodes to, for a known kind byte
    and a buffer long enough. *)
Lemma encode_make_message k sender rest :
  let buffer := k :: sender :: rest in
  kind_known k = true →
  6 + declared_length buffer ≤ size buffer →
  encode (make_message k sender
            (take (Z.to_nat (declared_length buffer)) (drop 6 buffer)))
  = take (Z.to_nat (6 + declared_length buffer)) buffer.
Proof.
  intros buffer Hk Hsz.
  pose proof (read_length_range buffer 2) as Hr.
  fold (declared_length buffer) in Hr.
  destruct (make_message_fields k sender
    (take (Z.to_nat (declared_length buffer)) (drop 6 buffer)) Hk)
    as (Hty & Hsnd & Hpay).
  rewrite encode_eq, Hty, Hsnd, Hpay.
  assert (Hlen : size (take (Z.to_nat (declared_length buffer)) (drop 6 buffer))
                 = declared_length buffer).
  { unfold size in *. rewrite length_take, length_drop. lia. }
  rewrite Hlen. unfold uint32_of_Z. rewrite Z.mod_small by done.
  unfold size in Hsz.
  destruct rest as [|b0 [|b1 [|b2 [|b3 rest]]]];
    try (exfalso; unfold buffer in *; simpl length in Hsz; lia).
  assert (declared_length buffer = ntohl b0 b1 b2 b3) as Hd by done.
  rewrite Hd, htonl_ntohl.
  replace (Z.to_nat (6 + ntohl b0 b1 b2 b3))
    with (6 + Z.to_nat (ntohl b0 b1 b2 b3))%nat by lia.
  done.
Qed.

(** Decoding and encoding again gives back the buffer up to the end of its
    declared payload. *)
Theorem encode_decode (buffer : list uint8) (msg : BaseMessage) :
  deserializeMessage buffer = Some msg →
  encode msg = take (Z.to_nat (6 + declared_length buffer)) buffer.
Proof.
  intros (k & sender & rest & -> & Hk & Hsz & ->)%deserializeMessage_Some.
  by apply encode_make_message.
Qed.

Lemma encode_decode_witness :
  let buffer := [Byte.x01; Byte.x07; Byte.x00; Byte.x00; Byte.x00; Byte.x01;
                 Byte.x2a; Byte.xff] in
  deserializeMessage buffer = Some (Event (mkEvent Byte.x07 [Byte.x2a]))
  ∧ encode (Event (mkEvent Byte.x07 [Byte.x2a]))
    = take (Z.to_nat (6 + declared_length buffer)) buffer.
Proof.
  intros buffer.
  assert (Hdec : deserializeMessage buffer
                 = Some (Event (mkEvent Byte.x07 [Byte.x2a]))) by reflexivity.
  split; [exact Hdec|exact (encode_decode buffer _ Hdec)].
Defined.

Lemma encode_set_senderID msg id :
  encode (set_senderID msg id) = <[1%nat := id]> (encode msg).
Proof. rewrite !encode_eq. by destruct msg. Qed.

(** ** Registry *)

Lemma uint8_of_Z_mod z : uint8_of_Z (z mod 256) = uint8_of_Z z.
Proof. unfold uint8_of_Z. by rewrite Z.mod_mod. Qed.

Lemma uint8_of_Z_add_l (b : uint8) a k :
  uint8_to_Z b = a mod 256 → uint8_of_Z (uint8_to_Z b + k) = uint8_of_Z (a + k).
Proof.
  intros ->. rewrite <- (uint8_of_Z_mod (a mod 256 + k)),
    <- (uint8_of_Z_mod (a + k)).
  by rewrite Zplus_mod_idemp_l.
Qed.

(** The ids handed out by a run, with the wrap of the counter. *)
Lemma server_run_ids_mod evs srv :
  clientID <$> (server_run evs srv).2
  = (λ k, uint8_of_Z (uint8_to_Z (nextClientID srv) + k))
      <$> seqZ 0 (Z.of_nat (accepts evs)).
Proof.
  revert srv. induction evs as [|[s|id] evs IH]; intros srv; [done| |].
  - rewrite server_run_cons. cbn [accepts server_step]. unfold accept_step.
    destruct (decide (s ≠ INVALID_SOCKET)) as [Hs|Hs]; cbn [fst snd];
      [|by apply IH].
    set (srv1 := mkServer _ _ _).
    rewrite seqZ_cons by lia. cbn [option_list option_rect app].
    rewrite !fmap_cons. cbn [clientID]. f_equal.
    { by rewrite Z.add_0_r, uint8_of_to. }
    rewrite IH.
    replace (Z.pred (Z.of_nat (S (accepts evs)))) with (Z.of_nat (accepts evs))
      by lia.
    rewrite <- (fmap_add_seqZ 1 0), <- list_fmap_compose.
    apply list_fmap_ext. intros _ k _. simpl.
    rewrite (uint8_of_Z_add_l _ (uint8_to_Z (nextClientID srv) + 1))
      by apply uint8_to_of.
    f_equal. lia.
  - rewrite server_run_cons. cbn [accepts server_step fst snd option_list
      option_rect app].
    by apply (IH (remove_client id srv)).
Qed.

Lemma fresh_server_id_at evs (i : nat) h :
  (server_run evs Server_init).2 !! i = Some h →
  clientID h = uint8_of_Z (1 + Z.of_nat i).
Proof.
  intros Hi.
  assert ((clientID <$> (server_run evs Server_init).2) !! i
          = Some (clientID h)) as Hid by (by rewrite list_lookup_fmap, Hi).
  rewrite server_run_ids_mod, list_lookup_fmap in Hid.
  destruct (seqZ 0 (Z.of_nat (accepts evs)) !! i) as [k|] eqn:Hk; [|done].
  apply lookup_seqZ in Hk as [-> _]. by injection Hid as <-.
Qed.

(** The id counter is eight bits wide and nothing else bounds it: the k-th
    connection accepted by a fresh server gets id [k mod 256], whatever
    happens in between.  So the 256th gets the sentinel 0, and a
    connection gets the id of the one accepted 256 places before it. *)
Theorem ids_wrap_around (evs : list server_event) :
  let created := (server_run evs Server_init).2 in
  (∀ (i : nat) h, created !! i = Some h →
     uint8_to_Z (clientID h) = (Z.of_nat i + 1) mod 256)
  ∧ (∀ h, created !! 255%nat = Some h → clientID h = Byte.x00)
  ∧ (∀ (i : nat) h h', created !! i = Some h →
       created !! (i + 256)%nat = Some h' → clientID h' = clientID h).
Proof.
  intros created. split_and!.
  - intros i h Hi. rewrite (fresh_server_id_at evs i h Hi), uint8_to_of.
    f_equal. lia.
  - intros h Hi. by rewrite (fresh_server_id_at evs _ h Hi).
  - intros i h h' Hi Hj.
    rewrite (fresh_server_id_at evs _ h Hi), (fresh_server_id_at evs _ h' Hj).
    rewrite <- (uint8_of_Z_mod (1 + Z.of_nat (i + 256))),
      <- (uint8_of_Z_mod (1 + Z.of_nat i)).
    f_equal.
    replace (1 + Z.of_nat (i + 256)) with (1 + Z.of_nat i + 1 * 256) by lia.
    apply Z.mod_add. lia.
Qed.

Lemma ids_wrap_around_witness :
  let evs := replicate 258 (Accepted 5) in
  (server_run evs Server_init).2 !! 255%nat = Some (mkHandler 5 Byte.x00)
  ∧ (server_run evs Server_init).2 !! 1%nat = Some (mkHandler 5 Byte.x02)
  ∧ (server_run evs Server_init).2 !! 257%nat = Some (mkHandler 5 Byte.x02)
  ∧ clientID (mkHandler 5 Byte.x00) = Byte.x00
  ∧ clientID (mkHandler 5 Byte.x02) = clientID (mkHandler 5 Byte.x02).
Proof.
  intros evs.
  assert (H255 : (server_run evs Server_init).2 !! 255%nat
                 = Some (mkHandler 5 Byte.x00)) by (vm_compute; reflexivity).
  assert (H1 : (server_run evs Server_init).2 !! 1%nat
               = Some (mkHandler 5 Byte.x02)) by (vm_compute; reflexivity).
  assert (H257 : (server_run evs Server_init).2 !! (1 + 256)%nat
                 = Some (mkHandler 5 Byte.x02)) by (vm_compute; reflexivity).
  destruct (ids_wrap_around evs) as (_ & Hzero & Hsame).
  split; [exact H255|]. split; [exact H1|]. split; [exact H257|].
  split; [exact (Hzero _ H255)|exact (Hsame _ _ _ H1 H257)].
Defined.

(** *** What the registry holds *)

Lemma server_run_sublist evs srv :
  clients (server_run evs srv).1
    `sublist_of` clients srv ++ (server_run evs srv).2.
Proof.
  revert srv. induction evs as [|[s|id] evs IH]; intros srv.
  - simpl. by rewrite app_nil_r.
  - rewrite server_run_cons. cbn [server_step]. unfold accept_step.
    destruct (decide (s ≠ INVALID_SOCKET)) as [Hs|Hs]; cbn [fst snd];
      [|apply IH].
    set (srv1 := mkServer _ _ _).
    specialize (IH srv1). cbn [option_list option_rect].
    unfold srv1 at 2 in IH. cbn [clients] in IH.
    by rewrite <- app_assoc in IH.
  - rewrite server_run_cons.
    cbn [server_step fst snd option_list option_rect app].
    etrans; [apply (IH (remove_client id srv))|].
    apply sublist_app; [apply sublist_filter|done].
Qed.

Lemma StronglySorted_fmap_inv {A B} (f : A → B) (R : relation B) (l : list A) :
  StronglySorted R (f <$> l) → StronglySorted (λ x y, R (f x) (f y)) l.
Proof.
  induction l as [|x l IH]; [constructor|].
  rewrite fmap_cons. intros [Hl Hx]%StronglySorted_inv.
  constructor; [by apply IH|]. rewrite Forall_fmap in Hx. exact Hx.
Qed.

Lemma StronglySorted_seqZ m n : StronglySorted Z.lt (seqZ m n).
Proof.
  destruct (Z.le_gt_cases n 0) as [Hn|Hn]; [rewrite seqZ_nil by done; constructor|].
  rewrite <- (Z2Nat.id n) by lia. generalize (Z.to_nat n). clear. intros k.
  revert m. induction k as [|k IH]; intros m; [constructor|].
  rewrite seqZ_cons by lia.
  replace (Z.pred (Z.of_nat (S k))) with (Z.of_nat k) by lia.
  constructor; [apply IH|].
  apply Forall_forall. intros x Hx%elem_of_seqZ. lia.
Qed.

Lemma StronglySorted_sublist {A} (R : relation A) (l1 l2 : list A) :
  l1 `sublist_of` l2 → StronglySorted R l2 → StronglySorted R l1.
Proof.
  induction 1 as [|x l1 l2 Hsub IH|x l1 l2 Hsub IH]; [done| |].
  - intros [Hl Hx]%StronglySorted_inv. constructor; [by apply IH|].
    apply Forall_forall. intros y Hy. eapply Forall_forall in Hx; [done|].
    by eapply elem_of_sublist.
  - intros [Hl _]%StronglySorted_inv. by apply IH.
Qed.

(** While fewer than 256 connections have been accepted, the ids in the
    registry are pairwise distinct and stand in acceptance order, lowest
    first, whoever has left in between. *)
Theorem registry_ids_distinct (evs : list server_event) :
  (accepts evs ≤ 255)%nat →
  let srv := (server_run evs Server_init).1 in
  StronglySorted uint8_lt (clientID <$> clients srv)
  ∧ NoDup (clientID <$> clients srv)
  ∧ (∀ ch ch', ch ∈ clients srv → ch' ∈ clients srv →
       clientID ch = clientID ch' → ch = ch').
Proof.
  intros Hle srv. subst srv.
  destruct (fresh_server_ids evs Hle) as [Hids _].
  pose proof (server_run_sublist evs Server_init) as Hsub.
  cbn [clients Server_init app] in Hsub.
  assert (Hsorted : StronglySorted uint8_lt
            (clientID <$> clients (server_run evs Server_init).1)).
  { apply (StronglySorted_sublist _ _
             (clientID <$> (server_run evs Server_init).2)).
    - by apply fmap_sublist.
    - apply (StronglySorted_fmap_inv uint8_to_Z Z.lt). rewrite Hids.
      apply StronglySorted_seqZ. }
  assert (Hnd : NoDup (clientID <$> clients (server_run evs Server_init).1)).
  { apply (sublist_NoDup _ (clientID <$> (server_run evs Server_init).2));
      [|by apply fmap_sublist].
    apply (NoDup_fmap_1 uint8_to_Z). rewrite Hids. apply NoDup_seqZ. }
  split_and!; [done|done|].
  intros ch ch' Hin Hin' E.
  apply NoDup_fmap_1 in Hnd as Hnd'.
  apply list_elem_of_lookup in Hin as [i Hi].
  apply list_elem_of_lookup in Hin' as [j Hj].
  assert (i = j) as ->.
  { eapply NoDup_lookup; [exact Hnd| |].
    - by rewrite list_lookup_fmap, Hi.
    - by rewrite list_lookup_fmap, Hj, E. }
  congruence.
Qed.

Lemma registry_ids_distinct_witness :
  let evs := [Accepted 10; Accepted 11; Left Byte.x01; Accepted 12] in
  (accepts evs ≤ 255)%nat
  ∧ NoDup (clientID <$> clients (server_run evs Server_init).1).
Proof.
  intros evs.
  assert (Hle : (accepts evs ≤ 255)%nat) by (vm_compute; lia).
  destruct (registry_ids_distinct evs Hle) as (_ & Hnd & _).
  split; [exact Hle|exact Hnd].
Defined.

(** As long as [accept] returns sockets that are not registered, the
    sockets of the registry stay pairwise distinct. *)
Theorem registry_sockets_distinct (evs : list server_event) (srv : Server) :
  NoDup (socket <$> clients srv) →
  fresh_sockets evs srv →
  NoDup (socket <$> clients (server_run evs srv).1).
Proof.
  revert srv. induction evs as [|[s|id] evs IH]; intros srv Hnd Hfresh; [done| |].
  - rewrite server_run_cons. cbn [fst]. destruct Hfresh as [Hs Hfresh].
    apply IH; [|done].
    cbn [server_step]. unfold accept_step.
    destruct (decide (s ≠ INVALID_SOCKET)) as [Hvalid|_]; [|done].
    destruct Hs as [?|Hs]; [done|].
    cbn [fst clients]. rewrite fmap_app. apply NoDup_app.
    split; [done|]. split; [|apply NoDup_singleton].
    intros x Hx ->%list_elem_of_singleton. done.
  - rewrite server_run_cons. cbn [fst]. destruct Hfresh as [_ Hfresh].
    apply IH; [|done]. cbn [server_step fst remove_client clients].
    apply (sublist_NoDup _ (socket <$> clients srv)); [exact Hnd|].
    apply fmap_sublist, sublist_filter.
Qed.

Lemma registry_sockets_distinct_witness :
  let evs := [Accepted 10; Accepted 11; Left Byte.x01; Accepted 10] in
  NoDup (socket <$> clients Server_init)
  ∧ fresh_sockets evs Server_init
  ∧ NoDup (socket <$> clients (server_run evs Server_init).1).
Proof.
  intros evs.
  assert (Hnd : NoDup (socket <$> clients Server_init)) by constructor.
  assert (Hfresh : fresh_sockets evs Server_init).
  { repeat split; right; decide_by_compute. }
  split; [exact Hnd|]. split; [exact Hfresh|].
  exact (registry_sockets_distinct evs Server_init Hnd Hfresh).
Defined.

(** ** Relay and teardown *)

Lemma NoDup_fmap_inj_on {A B} (f : A → B) (l : list A) x y :
  NoDup (f <$> l) → x ∈ l → y ∈ l → f x = f y → x = y.
Proof.
  intros Hnd [i Hi]%list_elem_of_lookup [j Hj]%list_elem_of_lookup E.
  assert (i = j) as ->; [|congruence].
  eapply NoDup_lookup; [exact Hnd| |].
  - by rewrite list_lookup_fmap, Hi.
  - by rewrite list_lookup_fmap, Hj, E.
Qed.

(** What the peers see of a frame the handler of connection [id] has read:
    each other registered connection receives a 4-byte length and the
    inbound frame cut at the end of its declared payload, with the byte at
    offset 1 replaced by [id]; a connection registered under [id] itself
    receives nothing. *)
Theorem relay_bytes (id : uint8) (clients : list ClientHandler)
    (buffer : list uint8) (msg : BaseMessage) :
  deserializeMessage buffer = Some msg →
  NoDup (socket <$> clients) →
  (∀ other, other ∈ clients → clientID other ≠ id →
     sent_to (socket other) (relay id clients buffer)
     = htonl (uint32_of_Z (6 + declared_length buffer))
       ++ <[1%nat := id]> (take (Z.to_nat (6 + declared_length buffer)) buffer))
  ∧ (∀ self, self ∈ clients → clientID self = id →
       sent_to (socket self) (relay id clients buffer) = []).
Proof.
  intros Hdec Hnd. unfold relay. rewrite Hdec.
  apply deserializeMessage_Some in Hdec as (k & sender & rest & -> & Hk & Hsz & ->).
  pose proof (read_length_range (k :: sender :: rest) 2) as Hr.
  fold (declared_length (k :: sender :: rest)) in Hr.
  pose proof (encode_make_message k sender rest Hk Hsz) as Henc.
  cbv zeta in Henc.
  split.
  - intros other Hin Hid. rewrite sent_to_member, decide_True by done.
    unfold frame_of. rewrite encode_set_senderID, Henc.
    do 3 f_equal. unfold size in *.
    rewrite length_insert, length_take. lia.
  - intros self Hin Hid. rewrite sent_to_member by done.
    rewrite decide_False; [done|]. by intros ?.
Qed.

Lemma relay_bytes_witness :
  let clients := [mkHandler 10 Byte.x01; mkHandler 11 Byte.x02] in
  let buffer := [Byte.x00; Byte.x63; Byte.x00; Byte.x00; Byte.x00; Byte.x01;
                 Byte.x41; Byte.xee] in
  deserializeMessage buffer = Some (Text (mkText Byte.x63 [Byte.x41]))
  ∧ NoDup (socket <$> clients)
  ∧ sent_to 11 (relay Byte.x01 clients buffer)
    = [Byte.x00; Byte.x00; Byte.x00; Byte.x07;
       Byte.x00; Byte.x01; Byte.x00; Byte.x00; Byte.x00; Byte.x01; Byte.x41]
  ∧ sent_to 10 (relay Byte.x01 clients buffer) = [].
Proof.
  intros clients buffer.
  assert (Hdec : deserializeMessage buffer
                 = Some (Text (mkText Byte.x63 [Byte.x41]))) by reflexivity.
  assert (Hnd : NoDup (socket <$> clients)) by decide_by_compute.
  destruct (relay_bytes Byte.x01 clients buffer _ Hdec Hnd) as [Hother Hself].
  split; [exact Hdec|]. split; [exact Hnd|]. split.
  - refine (eq_trans (Hother (mkHandler 11 Byte.x02) _ _) _);
      [repeat constructor|done|reflexivity].
  - apply (Hself (mkHandler 10 Byte.x01)); [repeat constructor|done].
Defined.

Lemma relay_no_echo ch clients buffer :
  NoDup (socket <$> clients) → ch ∈ clients →
  sent_to (socket ch) (relay (clientID ch) clients buffer) = [].
Proof.
  intros Hnd Hin. unfold relay.
  destruct (deserializeMessage buffer) as [msg|]; [|done].
  rewrite sent_to_member by done. rewrite decide_False; [done|]. by intros ?.
Qed.

Lemma handleClient_loop_no_echo fuel srv ch input :
  NoDup (socket <$> clients srv) → ch ∈ clients srv →
  sent_to (socket ch) (handleClient_loop fuel srv (clientID ch) input).1 = [].
Proof.
  intros Hnd Hin. revert input.
  induction fuel as [|fuel IH]; intros input; [done|].
  rewrite handleClient_loop_unfold.
  destruct (isRunning srv); [|done].
  destruct (read_frame (S fuel) input) as [buffer input'| | |]; try done.
  cbn [fst]. by rewrite sent_to_app, relay_no_echo, IH.
Qed.

(** A handler never writes to its own socket, and when it is done (however
    its loop was left) its last call closes that socket, after it has taken
    every entry with its id out of the registry: no later broadcast writes
    to the closed socket, and the entries of other ids stay, in order. *)
Theorem handleClient_teardown (fuel : nat) (srv : Server) (ch : ClientHandler)
    (input : list arrival) :
  NoDup (socket <$> clients srv) →
  ch ∈ clients srv →
  let srv' := (handleClient fuel srv ch input).1.1 in
  let calls := (handleClient fuel srv ch input).1.2 in
  last calls = Some (closesocket (socket ch))
  ∧ sent_to (socket ch) calls = []
  ∧ clients srv' = filter (λ ch', clientID ch' ≠ clientID ch) (clients srv)
  ∧ (socket ch ∉ socket <$> clients srv')
  ∧ (∀ msg X, sent_to (socket ch) (broadcastMessage msg X (clients srv')) = [])
  ∧ NoDup (socket <$> clients srv').
Proof.
  intros Hnd Hin srv' calls. subst srv' calls. unfold handleClient.
  pose proof (handleClient_loop_no_echo fuel srv ch input Hnd Hin) as Hecho.
  destruct (handleClient_loop fuel srv (clientID ch) input) as [sent e].
  cbn [fst snd remove_client clients] in *.
  assert (Hgone : socket ch ∉ (socket
            <$> filter (λ ch', clientID ch' ≠ clientID ch) (clients srv))).
  { intros (ch' & Hs & [Hid Hin']%list_elem_of_filter)%list_elem_of_fmap.
    apply Hid. f_equal. symmetry.
    by apply (NoDup_fmap_inj_on socket (clients srv)). }
  split_and!.
  - apply last_snoc.
  - rewrite sent_to_app, Hecho. done.
  - done.
  - done.
  - intros msg X. by apply sent_to_stranger.
  - apply (sublist_NoDup _ (socket <$> clients srv)); [done|].
    apply fmap_sublist, sublist_filter.
Qed.

Lemma handleClient_teardown_witness :
  let srv := mkServer [mkHandler 10 Byte.x01; mkHandler 11 Byte.x02]
               Byte.x03 true in
  let ch := mkHandler 10 Byte.x01 in
  let input := wire (Text (mkText Byte.x00 [Byte.x68])) ++ [Shutdown] in
  NoDup (socket <$> clients srv)
  ∧ ch ∈ clients srv
  ∧ last (handleClient 4 srv ch input).1.2 = Some (closesocket 10)
  ∧ clients (handleClient 4 srv ch input).1.1 = [mkHandler 11 Byte.x02].
Proof.
  intros srv ch input.
  assert (Hnd : NoDup (socket <$> clients srv)) by decide_by_compute.
  assert (Hin : ch ∈ clients srv) by (repeat constructor).
  destruct (handleClient_teardown 4 srv ch input Hnd Hin)
    as (Hlast & _ & Hreg & _).
  split; [exact Hnd|]. split; [exact Hin|]. split; [exact Hlast|].
  rewrite Hreg. reflexivity.
Defined.

(** *** Shutdown *)



(** ** Framing over any segmentation *)

Lemma avail_cons_nonempty seg input :
  seg ≠ [] → avail (Data seg :: input) = seg ++ avail input.
Proof. by destruct seg. Qed.

Lemma after_cons_nonempty seg input :
  seg ≠ [] → after (Data seg :: input) = after input.
Proof. by destruct seg. Qed.

(** One [recv] of at most [len] bytes, in terms of the bytes available. *)
Lemma recv_avail len input :
  0 < len →
  (avail input = [] → (recv len input).1.1 ≤ 0)
  ∧ (avail input ≠ [] →
     0 < (recv len input).1.1 ≤ len
     ∧ (recv len input).1.1 = size (recv len input).1.2
     ∧ (recv len input).1.2 ++ avail (recv len input).2 = avail input
     ∧ after (recv len input).2 = after input).
Proof.
  intros Hlen.
  destruct input as [|[[|b seg]| |] input]; cbn [recv fst snd].
  2: { change (size (@nil uint8)) with 0.
       destruct (Z.leb_spec 0 len); [|lia]. cbn [fst snd].
       split; [done|intros Hne; by destruct Hne]. }
  1, 3, 4: split; [intros _; unfold SOCKET_ERROR; lia
                   |intros Hne; by destruct Hne].
  split; [done|]. intros _.
  { assert (Hne : b :: seg ≠ []) by done.
    generalize dependent (b :: seg). clear b seg. intros s Hne.
    assert (Hs : 0 < size s).
    { unfold size. destruct s; [done|]. simpl length. lia. }
    rewrite avail_cons_nonempty, after_cons_nonempty by done.
    destruct (Z.leb_spec (size s) len) as [Hle|Hgt]; cbn [fst snd].
    + split_and!; [lia|lia|done|done|done].
    + assert (Hd : drop (Z.to_nat len) s ≠ []).
      { intros E. apply (f_equal length) in E. rewrite length_drop in E.
        unfold size in Hgt. change (length (@nil uint8)) with 0%nat in E. lia. }
      split_and!; [lia|lia| | |].
      * unfold size in *. rewrite length_take. lia.
      * rewrite avail_cons_nonempty by done.
        by rewrite app_assoc, take_drop.
      * by rewrite after_cons_nonempty. }
Qed.

Lemma store_length (buffer data : list uint8) pos :
  0 ≤ pos → pos + size data ≤ size buffer →
  length (store buffer pos data) = length buffer.
Proof.
  unfold store, size. intros Hpos Hfit.
  rewrite !length_app, length_take, length_drop. lia.
Qed.

Lemma store_take (buffer data : list uint8) pos :
  0 ≤ pos → pos + size data ≤ size buffer →
  take (Z.to_nat (pos + size data)) (store buffer pos data)
  = take (Z.to_nat pos) buffer ++ data.
Proof.
  unfold store, size. intros Hpos Hfit.
  rewrite app_assoc. apply take_app_length'.
  rewrite length_app, length_take. lia.
Qed.

(** The inner loop gathers exactly the bytes still missing when the input
    has them, however they are cut into segments, and comes back with a
    result of 0 or less when the input runs dry first. *)
Lemma recv_loop_avail fuel msgSize :
  ∀ totalReceived bytesReceived buffer input,
    (weight input < fuel)%nat →
    0 ≤ totalReceived ≤ msgSize →
    size buffer = msgSize →
    0 < bytesReceived →
    (msgSize - totalReceived ≤ size (avail input) →
       ∃ r input',
         recv_loop fuel msgSize totalReceived bytesReceived buffer input
         = Some (r, take (Z.to_nat totalReceived) buffer
                    ++ take (Z.to_nat (msgSize - totalReceived)) (avail input),
                 input')
         ∧ 0 < r
         ∧ avail input' = drop (Z.to_nat (msgSize - totalReceived)) (avail input)
         ∧ after input' = after input)
    ∧ (size (avail input) < msgSize - totalReceived →
       ∃ r buffer' input',
         recv_loop fuel msgSize totalReceived bytesReceived buffer input
         = Some (r, buffer', input')
         ∧ r ≤ 0).
Proof.
  induction fuel as [|fuel IH];
    intros totalReceived bytesReceived buffer input Hfuel Htot Hbuf Hbr; [lia|].
  cbn [recv_loop].
  destruct (Z.ltb_spec totalReceived msgSize) as [Hlt|Hge].
  2:{ assert (totalReceived = msgSize) as -> by lia. split.
      - intros _. exists bytesReceived, input.
        rewrite Z.sub_diag. change (Z.to_nat 0) with 0%nat.
        cbn [take drop]. rewrite app_nil_r, take_ge by (unfold size in Hbuf; lia).
        done.
      - pose proof (size_nonneg (avail input)). lia. }
  destruct (recv_avail (msgSize - totalReceived) input) as [Hdry Hwet]; [lia|].
  destruct (recv_weight (msgSize - totalReceived) input) as [_ Hdec]; [lia|].
  destruct (recv (msgSize - totalReceived) input) as [[n data] input1].
  cbn [fst snd] in *.
  destruct (decide (avail input = [])) as [Hnil|Hsome].
  - specialize (Hdry Hnil). destruct (Z.leb_spec n 0); [|lia]. split.
    + rewrite Hnil. unfold size at 1. simpl. lia.
    + intros _. by eexists _, _, _.
  - destruct (Hwet Hsome) as (Hn & Hsz & Hcat & Hafter).
    destruct (Z.leb_spec n 0); [lia|].
    assert (Hfit : totalReceived + size data ≤ size buffer) by lia.
    destruct (IH (totalReceived + n) n (store buffer totalReceived data) input1)
      as [IHok IHdry].
    { lia. } { lia. }
    { unfold size. rewrite store_length by lia. exact Hbuf. }
    { lia. }
    assert (Hav : size (avail input) = n + size (avail input1)).
    { rewrite <- Hcat, size_app. lia. }
    split.
    + intros Henough.
      destruct IHok as (r & input' & -> & Hr & Hav' & Haf'); [lia|].
      exists r, input'. split_and!; [|done| |congruence].
      * do 2 f_equal. rewrite Hsz, store_take by lia.
        rewrite <- app_assoc. f_equal.
        rewrite <- Hcat, take_app.
        rewrite (take_ge data) by (unfold size in *; lia).
        do 3 f_equal. unfold size in *. lia.
      * rewrite Hav', <- Hcat, drop_app.
        rewrite (drop_ge data) by (unfold size in *; lia). cbn [app].
        f_equal. unfold size in *. lia.
    + intros Hshort.
      destruct IHdry as (r & buffer' & input' & -> & Hr); [lia|].
      by eexists _, _, _.
Qed.

(** A frame is read whole whenever its bytes arrive, in whatever segments:
    the length field must come within the first segment, the body may be
    split anywhere and may be followed at once by later bytes, which are
    left for the next read. *)
Theorem read_frame_any_segmentation (fuel : nat) (seg0 : list uint8)
    (input0 : list arrival) (buffer extra : list uint8) :
  4 ≤ size seg0 →
  avail (Data seg0 :: input0) = htonl (size buffer) ++ buffer ++ extra →
  size buffer < 2 ^ 32 →
  (weight (Data seg0 :: input0) < fuel)%nat →
  ∃ input',
    read_frame fuel (Data seg0 :: input0) = Frame buffer input'
    ∧ avail input' = extra
    ∧ after input' = after (Data seg0 :: input0).
Proof.
  intros Hseg Hav Hsz Hfuel.
  pose proof (size_nonneg buffer) as Hnn.
  destruct (ntohl_htonl (size buffer)) as (b0 & b1 & b2 & b3 & Eh & En); [lia|].
  rewrite Eh in Hav.
  assert (Hne : avail (Data seg0 :: input0) ≠ []) by (by rewrite Hav).
  destruct (recv_avail 4 (Data seg0 :: input0)) as [_ Hwet]; [lia|].
  destruct (Hwet Hne) as (Hn & Hn' & Hcat & Hafter).
  destruct (recv_weight 4 (Data seg0 :: input0)) as [_ Hdec]; [lia|].
  assert (Hfour : (recv 4 (Data seg0 :: input0)).1.1 = 4).
  { cbn [recv]. destruct (Z.leb_spec (size seg0) 4); cbn [fst]; lia. }
  unfold read_frame.
  destruct (recv 4 (Data seg0 :: input0)) as [[n data] input1].
  cbn [fst snd] in *. rewrite Hfour in *. clear Hfour.
  change (4 <=? 0) with false. cbv iota.
  assert (Hdata : data = [b0; b1; b2; b3]
                  ∧ avail input1 = buffer ++ extra).
  { rewrite Hav in Hcat. unfold size in Hn'.
    destruct data as [|d0 [|d1 [|d2 [|d3 [|d4 data]]]]];
      simpl length in Hn'; try lia.
    by simplify_list_eq. }
  destruct Hdata as [-> Hav1]. rewrite En.
  destruct (recv_loop_avail fuel (size buffer) 0 4
              (replicate (Z.to_nat (size buffer)) Byte.x00) input1)
    as [Hok _].
  { lia. } { lia. }
  { unfold size. rewrite length_replicate. lia. }
  { lia. }
  destruct Hok as (r & input' & -> & Hr & Hav' & Haf').
  { rewrite Hav1, size_app. pose proof (size_nonneg extra). lia. }
  destruct (Z.leb_spec r 0); [lia|].
  exists input'. rewrite Z.sub_0_r in *. change (Z.to_nat 0) with 0%nat.
  cbn [take app]. rewrite Hav1 in *.
  unfold size in *. rewrite Nat2Z.id in *.
  rewrite take_app_length, drop_app_length in *.
  split_and!; [done|done|congruence].
Qed.

Lemma read_frame_any_segmentation_witness :
  let buffer := [Byte.x00; Byte.x05; Byte.x00; Byte.x00; Byte.x00; Byte.x02;
                 Byte.x68; Byte.x69] in
  let seg0 := htonl (size buffer) ++ [Byte.x00; Byte.x05; Byte.x00] in
  let input0 := [Data [Byte.x00; Byte.x00]; Data [Byte.x02; Byte.x68];
                 Data [Byte.x69; Byte.x00; Byte.x00]; Shutdown] in
  4 ≤ size seg0
  ∧ avail (Data seg0 :: input0)
    = htonl (size buffer) ++ buffer ++ [Byte.x00; Byte.x00]
  ∧ size buffer < 2 ^ 32
  ∧ (weight (Data seg0 :: input0) < 20)%nat
  ∧ ∃ input', read_frame 20 (Data seg0 :: input0) = Frame buffer input'
      ∧ avail input' = [Byte.x00; Byte.x00]
      ∧ after input' = after (Data seg0 :: input0).
Proof.
  intros buffer seg0 input0.
  assert (H1 : 4 ≤ size seg0) by (vm_compute; discriminate).
  assert (H2 : avail (Data seg0 :: input0)
               = htonl (size buffer) ++ buffer ++ [Byte.x00; Byte.x00])
    by reflexivity.
  assert (H3 : size buffer < 2 ^ 32) by reflexivity.
  assert (H4 : (weight (Data seg0 :: input0) < 20)%nat) by (vm_compute; lia).
  split; [exact H1|]. split; [exact H2|]. split; [exact H3|].
  split; [exact H4|].
  exact (read_frame_any_segmentation 20 seg0 input0 buffer _ H1 H2 H3 H4).
Defined.



(** ** Mailbox contents *)

Lemma sort_all_app msgs msg c :
  sort_all (msgs ++ [msg]) c = sort_switch msg (sort_all msgs c).
Proof. unfold sort_all. by rewrite foldl_app. Qed.


Lemma sort_all_texts_in msgs c :
  textMessages (sort_all msgs c) = textMessages c ++ texts_in msgs.
Proof.
  induction msgs as [|msg msgs IH] using rev_ind.
  { simpl. by rewrite app_nil_r. }
  rewrite sort_all_app. unfold texts_in. rewrite omap_app. fold (texts_in msgs).
  destruct msg; cbn [sort_switch textMessages omap list_omap];
    rewrite IH; [by rewrite app_assoc|by rewrite app_nil_r..].
Qed.

Lemma sort_all_events_in msgs c :
  eventMessages (sort_all msgs c) = eventMessages c ++ events_in msgs.
Proof.
  induction msgs as [|msg msgs IH] using rev_ind.
  { simpl. by rewrite app_nil_r. }
  rewrite sort_all_app. unfold events_in. rewrite omap_app. fold (events_in msgs).
  destruct msg; cbn [sort_switch eventMessages omap list_omap];
    rewrite IH; [by rewrite app_nil_r|by rewrite app_assoc|by rewrite app_nil_r].
Qed.

Lemma sort_all_snapshot_at msgs c (S : uint8) :
  snapshotMessages (sort_all msgs c) !! S
  = match last_snapshot S msgs with
    | Some sm => Some sm
    | None => snapshotMessages c !! S
    end.
Proof.
  induction msgs as [|msg msgs IH] using rev_ind; [done|].
  rewrite sort_all_app. unfold last_snapshot, snapshots_in in *.
  rewrite omap_app, filter_app.
  destruct msg as [tm|em|sm]; cbn [sort_switch snapshotMessages omap list_omap].
  - by rewrite filter_nil, app_nil_r.
  - by rewrite filter_nil, app_nil_r.
  - destruct (decide (sm_senderID sm = S)) as [<-|Hne].
    + rewrite filter_cons_True, filter_nil, last_snoc by done.
      apply lookup_insert_eq.
    + rewrite filter_cons_False, filter_nil, app_nil_r by done.
      by rewrite lookup_insert_ne.
Qed.

(** What the mailbox holds after any run of messages has been classified,
    kinds and senders mixed at will: the text queue and the event queue
    have grown by the messages of their kind, in arrival order, and the
    entry of a sender in the snapshot map is that sender's last snapshot of
    the run (the former entry when the run has none). *)
Theorem mailbox_after_classification (msgs : list BaseMessage) (c : Client) :
  textMessages (sort_all msgs c) = textMessages c ++ texts_in msgs
  ∧ eventMessages (sort_all msgs c) = eventMessages c ++ events_in msgs
  ∧ (∀ S, snapshotMessages (sort_all msgs c) !! S
          = match last_snapshot S msgs with
            | Some sm => Some sm
            | None => snapshotMessages c !! S
            end).
Proof.
  split; [apply sort_all_texts_in|].
  split; [apply sort_all_events_in|].
  intros S. apply sort_all_snapshot_at.
Qed.

(** Everything received between two turns of the dispatcher is handled by
    the next turn: the texts in arrival order, then the events in arrival
    order, then one snapshot per sender, the last one received from it, by
    ascending sender key; and the mailbox is empty afterwards. *)
Theorem classify_then_drain (msgs : list BaseMessage) :
  let c := sort_all msgs Client_empty in
  let entries := map_entries (snapshotMessages c) in
  processMessages_turn c
  = (Client_empty,
     [lock] ++ (displayTextMessage <$> texts_in msgs)
       ++ (processEventMessage <$> events_in msgs)
       ++ (processSnapshotMessage <$> entries.*2) ++ [unlock])
  ∧ StronglySorted uint8_lt entries.*1
  ∧ (∀ S, filter (λ e, e.1 = S) entries
          = match last_snapshot S msgs with
            | Some sm => [(S, sm)]
            | None => []
            end).
Proof.
  intros c entries. subst c entries. split_and!.
  - rewrite processMessages_turn_spec, sort_all_texts_in, sort_all_events_in.
    done.
  - apply map_entries_sorted.
  - intros S. rewrite map_entries_for_key, sort_all_snapshot_at.
    destruct (last_snapshot S msgs); [done|].
    unfold Client_empty. cbn [snapshotMessages]. by rewrite lookup_empty.
Qed.

(** ** Streams of frames *)













(** ** From one client to another *)










(** ** The snapshot loop of the client's [main] *)






